(** * Event filters and event factories of ethers-contract-tools

    A shallow embedding of the event tooling: the value matcher
    ([isDeepEqual], [_matchProperties]), the filter builder
    ([_buildFilterArgs]), the single-filter decoder ([filterEventFromLog]),
    the ordered matcher ([_orderedFilter]) and the event factory that
    [wrapEventType] builds ([findEventArgs], [expectOne], [all]).

    Thrown exceptions (chai assertions, [TypeError]) are values of an error
    monad; loops are recursive functions over the sequence they walk.
    Decoding, which belongs to ethers, is a function given with the filter
    or the interface. *)

From Stdlib Require Import ZArith String Ascii List Bool Lia.
From stdpp Require Import base gmap strings list.

Local Open Scope string_scope.
Local Open Scope list_scope.
Set Warnings "-register-all".

(** ** Failures *)

(** The exceptions the source can raise, with the data chai prints. *)
Inductive Failure : Type :=
| WrongOrderOfEvents (j : nat) (prevActualIndex : Z)
| NotAllExpectedEventsFound (found expected : nat)
| TypeErrorNullToObject
| InconsistentIndexed (arrayCount inputs : nat)
| InconsistentValue
| InconsistentNamed (namedCount : Z)
| FailedToFindAnyEvent (name : string)
| ExpectingSingleEvent (name : string) (found : nat)
| PropertyIndexUndefined (name : string) (index : nat)
| PropertyNameUndefined (name : string) (prop : string)
| MismatchedIndex (name : string) (index : nat)
| MismatchedName (name : string) (prop : string)
| NoSuchEvent (name : string).

Inductive Res (A : Type) : Type :=
| Ok (a : A)
| Err (e : Failure).
Arguments Ok {A} a.
Arguments Err {A} e.

Definition bind {A B : Type} (r : Res A) (k : A -> Res B) : Res B :=
  match r with
  | Ok a => k a
  | Err e => Err e
  end.

Declare Scope res_scope.
Delimit Scope res_scope with res.
Notation "x <- r ;;; k" := (bind r (fun x => k))
  (at level 100, r at next level, right associativity) : res_scope.
Local Open Scope res_scope.

(** [expect(cond, ...)]: raise [e] unless [cond]. *)
Definition expect (cond : bool) (e : Failure) : Res unit :=
  if cond then Ok tt else Err e.

(** ** JavaScript values *)

(** Numbers are the integers; arrays and objects carry a reference [ref]
    (their identity, which [===] compares).  An array has its elements and,
    as [utils.Result] and the mixed filter form do, own named properties.
    Property names of objects are names, never canonical array indices. *)
Inductive JValue : Type :=
| JUndefined
| JNull
| JBool (b : bool)
| JNum (n : Z)
| JStr (s : string)
| JFun (name : string)
| JArr (ref : nat) (items : list JValue) (props : list (string * JValue))
| JObj (ref : nat) (props : list (string * JValue)).

Inductive JType : Type :=
| TyUndefined | TyBoolean | TyNumber | TyString | TyFunction | TyObject.

Definition typeof (v : JValue) : JType :=
  match v with
  | JUndefined => TyUndefined
  | JBool _ => TyBoolean
  | JNum _ => TyNumber
  | JStr _ => TyString
  | JFun _ => TyFunction
  | JNull | JArr _ _ _ | JObj _ _ => TyObject
  end.

Definition JType_eqb (a b : JType) : bool :=
  match a, b with
  | TyUndefined, TyUndefined | TyBoolean, TyBoolean | TyNumber, TyNumber
  | TyString, TyString | TyFunction, TyFunction | TyObject, TyObject => true
  | _, _ => false
  end.

(** [v0 === v1]. *)
Definition strict_eq (v0 v1 : JValue) : bool :=
  match v0, v1 with
  | JUndefined, JUndefined => true
  | JNull, JNull => true
  | JBool a, JBool b => Bool.eqb a b
  | JNum a, JNum b => Z.eqb a b
  | JStr a, JStr b => String.eqb a b
  | JFun a, JFun b => String.eqb a b
  | JArr r0 _ _, JArr r1 _ _ => Nat.eqb r0 r1
  | JObj r0 _, JObj r1 _ => Nat.eqb r0 r1
  | _, _ => false
  end.

(** [v ?? null]. *)
Definition nullish (v : JValue) : bool :=
  match v with
  | JUndefined | JNull => true
  | _ => false
  end.

Definition or_null (v : JValue) : JValue :=
  if nullish v then JNull else v.

Definition isArray (v : JValue) : bool :=
  match v with
  | JArr _ _ _ => true
  | _ => false
  end.

(** A property key: an array index or a name. *)
Inductive Key : Type :=
| KIdx (i : nat)
| KName (s : string).

Definition Key_eqb (a b : Key) : bool :=
  match a, b with
  | KIdx i, KIdx j => Nat.eqb i j
  | KName s, KName t => String.eqb s t
  | _, _ => false
  end.

Fixpoint assoc (key : string) (props : list (string * JValue)) : option JValue :=
  match props with
  | [] => None
  | (k, v) :: props' => if String.eqb k key then Some v else assoc key props'
  end.

(** The methods every object inherits from [Object.prototype], and every
    array from [Array.prototype]. *)
Definition Object_prototype : list string :=
  [ "constructor"; "hasOwnProperty"; "isPrototypeOf"; "propertyIsEnumerable";
    "toLocaleString"; "toString"; "valueOf";
    "__defineGetter__"; "__defineSetter__"; "__lookupGetter__";
    "__lookupSetter__" ].

Definition Array_prototype : list string :=
  [ "at"; "concat"; "copyWithin"; "entries"; "every"; "fill"; "filter";
    "find"; "findIndex"; "findLast"; "findLastIndex"; "flat"; "flatMap";
    "forEach"; "includes"; "indexOf"; "join"; "keys"; "lastIndexOf"; "map";
    "pop"; "push"; "reduce"; "reduceRight"; "reverse"; "shift"; "slice";
    "some"; "sort"; "splice"; "unshift"; "values" ].

Definition mem_string (s : string) (l : list string) : bool :=
  existsb (String.eqb s) l.

Definition inherited (protos : list string) (name : string) : JValue :=
  if mem_string name protos then JFun name else JUndefined.

(** [v[key]] for an array or an object [v]: own properties first (for an
    array its elements and [length]), then the prototype chain. *)
Definition get_prop (v : JValue) (key : Key) : JValue :=
  match v, key with
  | JArr _ items _, KIdx i => nth i items JUndefined
  | JArr _ items props, KName name =>
      if String.eqb name "length" then JNum (Z.of_nat (length items))
      else match assoc name props with
           | Some x => x
           | None => inherited (Array_prototype ++ Object_prototype) name
           end
  | JObj _ props, KName name =>
      match assoc name props with
      | Some x => x
      | None => inherited Object_prototype name
      end
  | _, _ => JUndefined
  end.

(** [Object.getOwnPropertyNames(v)] for a value whose [typeof] is
    ['object']; it throws on [null]. *)
Definition getOwnPropertyNames (v : JValue) : Res (list Key) :=
  match v with
  | JArr _ items props =>
      Ok (map KIdx (seq 0 (length items))
            ++ KName "length" :: map (fun p => KName (fst p)) props)
  | JObj _ props => Ok (map (fun p => KName (fst p)) props)
  | _ => Err TypeErrorNullToObject
  end.

(** ** Value matcher *)

(** [isDeepEqual(v0, v1)].  The two inner loops are [a0.some(...)] negated
    and [for (const key of k0)]; the latter walks the own properties of
    [v0], whose value at [key] is [v0[key]]. *)
Fixpoint isDeepEqual (v0 v1 : JValue) {struct v0} : Res bool :=
  if negb (JType_eqb (typeof v0) (typeof v1)) then Ok false
  else
    match v0 with
    | JArr _ a0 _ =>
        match v1 with
        | JArr _ a1 _ =>
            if Nat.eqb (length a0) (length a1) then
              (fix every (l : list JValue) (i : nat) {struct l} : Res bool :=
                 match l with
                 | [] => Ok true
                 | value :: l' =>
                     eq <- isDeepEqual value (nth i a1 JUndefined) ;;;
                     if eq then every l' (S i) else Ok false
                 end) a0 0%nat
            else Ok false
        | _ => Ok false
        end
    | JObj _ p0 =>
        k1 <- getOwnPropertyNames v1 ;;;
        if negb (Nat.eqb (length p0) (length k1)) then Ok false
        else
          (fix each (ps : list (string * JValue)) {struct ps} : Res bool :=
             match ps with
             | [] => Ok true
             | (key, x) :: ps' =>
                 if negb (existsb (Key_eqb (KName key)) k1) then Ok false
                 else
                   eq <- isDeepEqual x (get_prop v1 (KName key)) ;;;
                   if eq then each ps' else Ok false
             end) p0
    | JNull => Err TypeErrorNullToObject
    | _ => Ok (strict_eq v0 v1)
    end.

(** [_matchProperties(actual, expected)]: [!expected.some(...)]. *)
Fixpoint matchProperties_from (actual : JValue) (expected : list JValue) (index : nat)
  : Res bool :=
  match expected with
  | [] => Ok true
  | value :: expected' =>
      if nullish value then matchProperties_from actual expected' (S index)
      else
        eq <- isDeepEqual value (get_prop actual (KIdx index)) ;;;
        if eq then matchProperties_from actual expected' (S index) else Ok false
  end.

Definition _matchProperties (actual : JValue) (expected : list JValue) : Res bool :=
  matchProperties_from actual expected 0.

(** ** Logs and filters *)

(** A log record of a receipt; its sequence position is its index in the
    receipt's [logs]. *)
Record Log : Type := {
  log_address : string;
  log_topics : list string;
  log_data : string
}.

(** An entry of [filter.topics]: [null], one topic, or a set of
    alternatives. *)
Inductive Topic : Type :=
| TopicNull
| TopicStr (s : string)
| TopicAlt (alts : list string).

Record ExtendedEventFilter : Type := {
  filter_address : option string;
  filter_topics : option (list Topic);
  nonIndexed : option (list JValue);
  decodeEventData : Log -> JValue
}.

(** [String.prototype.toUpperCase] on the characters of an address. *)
Definition upper_ascii (c : ascii) : ascii :=
  let n := nat_of_ascii c in
  if (Nat.leb 97 n && Nat.leb n 122)%bool then ascii_of_nat (n - 32) else c.

Fixpoint toUpperCase (s : string) : string :=
  match s with
  | EmptyString => EmptyString
  | String c s' => String (upper_ascii c) (toUpperCase s')
  end.

(** [expectedTopic !== null && expectedTopic !== actual.topics[i]]. *)
Definition topic_differs (expectedTopic : Topic) (actualTopic : string) : bool :=
  match expectedTopic with
  | TopicNull => false
  | TopicStr s => negb (String.eqb s actualTopic)
  | TopicAlt _ => true
  end.

(** The loop of [_matchTopics]; [actualTopics] is [actual.topics] from
    index [i] on. *)
Fixpoint matchTopics_loop (expectedTopics : list Topic) (actualTopics : list string)
  : bool :=
  match expectedTopics with
  | [] => true
  | expectedTopic :: expectedTopics' =>
      match actualTopics with
      | [] => false
      | actualTopic :: actualTopics' =>
          if topic_differs expectedTopic actualTopic then false
          else matchTopics_loop expectedTopics' actualTopics'
      end
  end.

Definition _matchTopics (actual : Log) (expected : ExtendedEventFilter) : bool :=
  let address_differs :=
    match filter_address expected with
    | Some a => negb (String.eqb (toUpperCase (log_address actual)) (toUpperCase a))
    | None => false
    end in
  if address_differs then false
  else matchTopics_loop (default [] (filter_topics expected)) (log_topics actual).

(** ** Ordered matcher *)

(** The locals of [_orderedFilter].  [positions] is a ghost: it records
    the index [j] of each record pushed on [result]. *)
Record MatchState : Type := {
  result : list JValue;
  resultAddr : list string;
  matched : list bool;
  prevActualIndex : Z;
  positions : list nat
}.

Definition init_state (actuals : list Log) : MatchState :=
  {| result := [];
     resultAddr := [];
     matched := replicate (length actuals) false;
     prevActualIndex := (-1)%Z;
     positions := [] |}.

(** How the inner loop over [j] ends: at the [break], or by running off
    the end of [actuals]. *)
Inductive Scan : Type :=
| Found (j : nat) (decoded : JValue) (addr : string)
| NotFound.

Definition is_matched (matched : list bool) (j : nat) : bool :=
  default false (matched !! j).

(** The inner loop from index [j]; [rest] is [actuals] from [j] on. *)
Fixpoint scan (expected : ExtendedEventFilter) (matched : list bool)
    (prevActualIndex : Z) (j : nat) (rest : list Log) {struct rest} : Res Scan :=
  match rest with
  | [] => Ok NotFound
  | actual :: rest' =>
      if is_matched matched j then scan expected matched prevActualIndex (S j) rest'
      else if _matchTopics actual expected then
        let decoded := decodeEventData expected actual in
        ok <- match nonIndexed expected with
              | None => Ok true
              | Some values => _matchProperties decoded values
              end ;;;
        if ok then
          _ <- expect (prevActualIndex <? Z.of_nat j)%Z
                      (WrongOrderOfEvents j prevActualIndex) ;;;
          Ok (Found j decoded (log_address actual))
        else scan expected matched prevActualIndex (S j) rest'
      else scan expected matched prevActualIndex (S j) rest'
  end.

(** One iteration of the outer loop, for the filter [expected]. *)
Definition step (forwardOnly : bool) (actuals : list Log) (st : MatchState)
    (expected : ExtendedEventFilter) : Res MatchState :=
  let start := if forwardOnly then Z.to_nat (prevActualIndex st + 1) else 0%nat in
  s <- scan expected (matched st) (prevActualIndex st) start (drop start actuals) ;;;
  match s with
  | Found j decoded addr =>
      Ok {| result := result st ++ [decoded];
            resultAddr := resultAddr st ++ [addr];
            matched := <[j := true]> (matched st);
            prevActualIndex := Z.of_nat j;
            positions := positions st ++ [j] |}
  | NotFound => Ok st
  end.

Fixpoint outer_loop (forwardOnly : bool) (actuals : list Log)
    (expecteds : list ExtendedEventFilter) (st : MatchState) : Res MatchState :=
  match expecteds with
  | [] => Ok st
  | expected :: expecteds' =>
      st' <- step forwardOnly actuals st expected ;;;
      outer_loop forwardOnly actuals expecteds' st'
  end.

(** [_orderedFilter] up to its final assertion, keeping the whole state. *)
Definition orderedFilter_state (actuals : list Log)
    (expecteds : list ExtendedEventFilter) (forwardOnly : bool) : Res MatchState :=
  st <- outer_loop forwardOnly actuals expecteds (init_state actuals) ;;;
  _ <- expect (Nat.eqb (length (result st)) (length expecteds))
              (NotAllExpectedEventsFound (length (result st)) (length expecteds)) ;;;
  Ok st.

Definition _orderedFilter (actuals : list Log) (expecteds : list ExtendedEventFilter)
    (forwardOnly : bool) : Res (list string * list JValue) :=
  st <- orderedFilter_state actuals expecteds forwardOnly ;;;
  Ok (resultAddr st, result st).

(** [expectEvents] and [expectEmittersAndEvents], on [receipt.logs]. *)
Definition expectEvents (logs : list Log) (filters : list ExtendedEventFilter)
  : Res (list JValue) :=
  r <- _orderedFilter logs filters false ;;;
  Ok (snd r).

Definition expectEmittersAndEvents (logs : list Log) (forwardOnly : bool)
    (filters : list ExtendedEventFilter) : Res (list string * list JValue) :=
  _orderedFilter logs filters forwardOnly.

(** Whether the inner loop accepts [actual] for [expected]: topics match
    and, when [nonIndexed] is set, the decoded values match. *)
Definition candidate (actual : Log) (expected : ExtendedEventFilter) : Res bool :=
  if _matchTopics actual expected then
    match nonIndexed expected with
    | None => Ok true
    | Some values => _matchProperties (decodeEventData expected actual) values
    end
  else Ok false.

(** ** Log decoder (single-filter path) *)

Definition EventDataDecoder : Type := Log -> JValue.

(** A non-empty string is truthy. *)
Definition truthy_string (s : string) : bool :=
  match s with
  | EmptyString => false
  | String _ _ => true
  end.

(** One iteration of the loop of [filtersToDecoders]. *)
Definition add_decoder (result : gmap string (gmap string EventDataDecoder))
    (filter : ExtendedEventFilter) : gmap string (gmap string EventDataDecoder) :=
  match filter_address filter, filter_topics filter with
  | Some address, Some topics =>
      if truthy_string address then
        match topics !! 0%nat with
        | Some (TopicStr eventType) =>
            let addr := toUpperCase address in
            let subMap := default ∅ (result !! addr) in
            <[addr := <[eventType := decodeEventData filter]> subMap]> result
        | _ => result
        end
      else result
  | _, _ => result
  end.

Definition filtersToDecoders (filters : list ExtendedEventFilter)
  : gmap string (gmap string EventDataDecoder) :=
  fold_left add_decoder filters ∅.

(** [entry.topics[0]] is [undefined] for a record without topics, and no
    decoder is stored under [undefined]. *)
Fixpoint decodeEventLogs (logs : list Log)
    (decoderLookup : string -> option string -> option EventDataDecoder)
  : list JValue :=
  match logs with
  | [] => []
  | entry :: logs' =>
      match decoderLookup (toUpperCase (log_address entry)) (log_topics entry !! 0%nat) with
      | Some decodeFn => decodeFn entry :: decodeEventLogs logs' decoderLookup
      | None => decodeEventLogs logs' decoderLookup
      end
  end.

Definition filterEventFromLog (logs : list Log) (filter : ExtendedEventFilter)
  : list JValue :=
  let decoders := filtersToDecoders [filter] in
  decodeEventLogs logs
    (fun emitter topic =>
       match decoders !! emitter, topic with
       | Some subMap, Some t => subMap !! t
       | _, _ => None
       end).

(** ** Filter builder *)

Record ParamType : Type := {
  param_name : string;
  param_indexed : bool
}.

Record EventFragment : Type := {
  fragment_name : string;
  inputs : list ParamType
}.

Definition is_space (c : ascii) : bool :=
  let n := nat_of_ascii c in
  (Nat.eqb n 32 || (Nat.leb 9 n && Nat.leb n 13))%bool.

Definition is_digit (c : ascii) : bool :=
  let n := nat_of_ascii c in
  (Nat.leb 48 n && Nat.leb n 57)%bool.

Fixpoint skip_spaces (s : string) : string :=
  match s with
  | String c s' => if is_space c then skip_spaces s' else s
  | EmptyString => s
  end.

(** [isNaN(parseInt(key, 10))]: after leading white space and an optional
    sign there is no digit. *)
Definition parseInt_isNaN (key : string) : bool :=
  let unsigned :=
    match skip_spaces key with
    | String c s' =>
        if (Ascii.eqb c "+" || Ascii.eqb c "-")%bool then s' else String c s'
    | EmptyString => EmptyString
    end in
  match unsigned with
  | String c _ => negb (is_digit c)
  | EmptyString => true
  end.

(** The keys [for (const key in properties)] visits; [properties] is an
    array, an object, or absent. *)
Definition for_in_keys (properties : JValue) : list Key :=
  match properties with
  | JArr _ items props =>
      (map KIdx (seq 0 (length items)) ++ map (fun p => KName (fst p)) props)
  | JObj _ props => map (fun p => KName (fst p)) props
  | _ => []
  end.

Definition key_isNaN (key : Key) : bool :=
  match key with
  | KIdx _ => false
  | KName s => parseInt_isNaN s
  end.

Definition count_named (properties : JValue) : Z :=
  Z.of_nat
    (length (List.filter (fun key => (negb (isArray properties) || key_isNaN key)%bool)
               (for_in_keys properties))).

Definition array_length (v : JValue) : nat :=
  match v with
  | JArr _ items _ => length items
  | _ => 0
  end.

(** The locals that [fragment.inputs.forEach] updates. *)
Record BuildState : Type := {
  b_indexed : list JValue;
  b_nonIndexed : list JValue;
  b_hasNonIndexed : bool;
  b_namedCount : Z
}.

Definition is_undefined (v : JValue) : bool :=
  match v with
  | JUndefined => true
  | _ => false
  end.

Definition is_null (v : JValue) : bool :=
  match v with
  | JNull => true
  | _ => false
  end.

(** The body of the [forEach] callback for [param] at [index]. *)
Definition build_param (properties : JValue) (st : BuildState)
    (param : ParamType) (index : nat) : Res BuildState :=
  let namedValue0 := get_prop properties (KName (param_name param)) in
  let value0 :=
    if isArray properties then or_null (get_prop properties (KIdx index)) else JNull in
  let namedValue := if is_undefined namedValue0 then JNull else namedValue0 in
  let namedCount :=
    if is_undefined namedValue0 then b_namedCount st else (b_namedCount st - 1)%Z in
  value <- (if negb (is_null namedValue) then
              if is_null value0 then Ok namedValue
              else _ <- expect (strict_eq namedValue value0) InconsistentValue ;;;
                   Ok value0
            else Ok value0) ;;;
  if param_indexed param then
    Ok {| b_indexed := b_indexed st ++ [value];
          b_nonIndexed := b_nonIndexed st ++ [JNull];
          b_hasNonIndexed := b_hasNonIndexed st;
          b_namedCount := namedCount |}
  else
    Ok {| b_indexed := b_indexed st ++ [JNull];
          b_nonIndexed := b_nonIndexed st ++ [value];
          b_hasNonIndexed := (b_hasNonIndexed st || negb (is_null value))%bool;
          b_namedCount := namedCount |}.

Fixpoint build_params (properties : JValue) (params : list ParamType) (index : nat)
    (st : BuildState) : Res BuildState :=
  match params with
  | [] => Ok st
  | param :: params' =>
      st' <- build_param properties st param index ;;;
      build_params properties params' (S index) st'
  end.

Definition _buildFilterArgs (fragment : EventFragment) (properties : JValue)
  : Res (list JValue * option (list JValue)) :=
  let arrayCount := if isArray properties then array_length properties else 0%nat in
  _ <- (if isArray properties then
          expect (Nat.leb arrayCount (length (inputs fragment)))
                 (InconsistentIndexed arrayCount (length (inputs fragment)))
        else Ok tt) ;;;
  let st0 := {| b_indexed := []; b_nonIndexed := []; b_hasNonIndexed := false;
                b_namedCount := count_named properties |} in
  st <- (if ((0 <? b_namedCount st0)%Z || Nat.ltb 0 arrayCount)%bool then
           st <- build_params properties (inputs fragment) 0 st0 ;;;
           _ <- expect (b_namedCount st =? 0)%Z (InconsistentNamed (b_namedCount st)) ;;;
           Ok st
         else Ok st0) ;;;
  Ok (if b_hasNonIndexed st then (b_indexed st, Some (b_nonIndexed st))
      else (b_indexed st, None)).

(** ** Event factory *)

(** What the factory uses of [emitter.interface] and of [utils]:
    [getEvent] throws on an unknown name; [event_id fragment] is
    [utils.id(fragment.format())]. *)
Record Interface : Type := {
  getEvent : string -> option EventFragment;
  event_id : EventFragment -> string;
  decodeEventLog : EventFragment -> string -> list string -> JValue
}.

Record Contract : Type := {
  contract_address : string;
  interface : Interface
}.

Definition get_fragment (parser : Interface) (name : string) : Res EventFragment :=
  match getEvent parser name with
  | Some fragment => Ok fragment
  | None => Err (NoSuchEvent name)
  end.

(** The test of the loop of [findEventArgs]. *)
Definition emitted_by (id addr : string) (entry : Log) : bool :=
  (match log_topics entry !! 0%nat with
   | Some t => String.eqb t id
   | None => false
   end && String.eqb (toUpperCase (log_address entry)) addr)%bool.

Fixpoint findEventArgs_loop (parser : Interface) (fragment : EventFragment)
    (id addr : string) (logs : list Log) : list JValue :=
  match logs with
  | [] => []
  | entry :: logs' =>
      if emitted_by id addr entry then
        decodeEventLog parser fragment (log_data entry) (log_topics entry)
          :: findEventArgs_loop parser fragment id addr logs'
      else findEventArgs_loop parser fragment id addr logs'
  end.

Definition findEventArgs (name : string) (logs : list Log) (emitter : Contract)
  : Res (list JValue) :=
  let addr := toUpperCase (contract_address emitter) in
  let parser := interface emitter in
  fragment <- get_fragment parser name ;;;
  let id := event_id parser fragment in
  let found := findEventArgs_loop parser fragment id addr logs in
  _ <- expect (Nat.ltb 0 (length found)) (FailedToFindAnyEvent name) ;;;
  Ok found.

(** [_verifyByFragment]: the [forEach] over [fragment.inputs]. *)
Fixpoint verifyByFragment_from (params : list ParamType) (index : nat)
    (name : string) (args : JValue) : Res unit :=
  match params with
  | [] => Ok tt
  | param :: params' =>
      _ <- expect (negb (is_undefined (get_prop args (KIdx index))))
                  (PropertyIndexUndefined name index) ;;;
      _ <- (if truthy_string (param_name param) then
              expect (negb (is_undefined (get_prop args (KName (param_name param)))))
                     (PropertyNameUndefined name (param_name param))
            else Ok tt) ;;;
      verifyByFragment_from params' (S index) name args
  end.

Definition _verifyByFragment (fragment : EventFragment) (name : string) (args : JValue)
  : Res unit :=
  verifyByFragment_from (inputs fragment) 0 name args.

(** The first loop of [_verifyByProperties], over the elements of an
    array [expected]. *)
Fixpoint verify_items (values : list JValue) (index : nat) (name : string)
    (args : JValue) : Res unit :=
  match values with
  | [] => Ok tt
  | value :: values' =>
      _ <- (if negb (nullish value) then
              expect (strict_eq (get_prop args (KIdx index)) value)
                     (MismatchedIndex name index)
            else Ok tt) ;;;
      verify_items values' (S index) name args
  end.

(** [Object.entries(expected)]. *)
Definition entries (v : JValue) : list (Key * JValue) :=
  match v with
  | JArr _ items props =>
      (imap (fun i x => (KIdx i, x)) items ++ map (fun p => (KName (fst p), snd p)) props)
  | JObj _ props => map (fun p => (KName (fst p), snd p)) props
  | _ => []
  end.

Definition mismatch (name : string) (key : Key) : Failure :=
  match key with
  | KIdx i => MismatchedIndex name i
  | KName s => MismatchedName name s
  end.

Fixpoint verify_entries (es : list (Key * JValue)) (name : string) (args : JValue)
  : Res unit :=
  match es with
  | [] => Ok tt
  | (propName, value) :: es' =>
      _ <- (if negb (nullish value) then
              expect (strict_eq (get_prop args propName) value) (mismatch name propName)
            else Ok tt) ;;;
      verify_entries es' name args
  end.

Definition _verifyByProperties (expected : JValue) (name : string) (args : JValue)
  : Res unit :=
  _ <- (match expected with
        | JArr _ items _ => verify_items items 0 name args
        | _ => Ok tt
        end) ;;;
  verify_entries (entries expected) name args.

(** The methods of the object [wrapEventType(customName, emitter)] builds;
    an absent optional argument is [JUndefined], an absent [fn] is [None]. *)
Section EventFactory.
Variable customName : string.
Variable emitter : Contract.

Definition verifyArgs (args : JValue) (expected : JValue) : Res JValue :=
  let n := customName in
  _ <- (if negb (nullish expected) then _verifyByProperties expected n args
        else Ok tt) ;;;
  fragment <- get_fragment (interface emitter) n ;;;
  _ <- _verifyByFragment fragment n args ;;;
  Ok args.

Definition expectOne (logs : list Log) (expected : JValue) : Res JValue :=
  args <- findEventArgs customName logs emitter ;;;
  _ <- expect (Nat.eqb (length args) 1) (ExpectingSingleEvent customName (length args)) ;;;
  verifyArgs (nth 0 args JUndefined) expected.

Fixpoint verify_each (args : list JValue) : Res unit :=
  match args with
  | [] => Ok tt
  | arg :: args' =>
      _ <- verifyArgs arg JUndefined ;;;
      verify_each args'
  end.

(** [all]: the decoded events themselves ([inl]) without [fn], what
    [fn] returns ([inr]) with it. *)
Definition all {R : Type} (logs : list Log) (fn : option (list JValue -> Res R))
  : Res (list JValue + R) :=
  args <- findEventArgs customName logs emitter ;;;
  match fn with
  | None =>
      _ <- verify_each args ;;;
      Ok (inl args)
  | Some f =>
      r <- f args ;;;
      Ok (inr r)
  end.
End EventFactory.

(** ** Vocabulary of the statements *)

(** Induction over values, with the hypothesis available on the elements
    of an array and on the property values of an object. *)
Section JValue_induction.
Variable P : JValue -> Prop.
Hypothesis Hundefined : P JUndefined.
Hypothesis Hnull : P JNull.
Hypothesis Hbool : forall b, P (JBool b).
Hypothesis Hnum : forall n, P (JNum n).
Hypothesis Hstr : forall s, P (JStr s).
Hypothesis Hfun : forall name, P (JFun name).
Hypothesis Harr : forall ref items props,
    Forall P items -> Forall (fun p => P (snd p)) props -> P (JArr ref items props).
Hypothesis Hobj : forall ref props,
    Forall (fun p => P (snd p)) props -> P (JObj ref props).

Fixpoint JValue_nested_ind (v : JValue) : P v :=
  match v with
  | JUndefined => Hundefined
  | JNull => Hnull
  | JBool b => Hbool b
  | JNum n => Hnum n
  | JStr s => Hstr s
  | JFun name => Hfun name
  | JArr ref items props =>
      Harr ref items props
        ((fix items_ind (l : list JValue) : Forall P l :=
            match l with
            | [] => @List.Forall_nil _ P
            | x :: l' => @List.Forall_cons _ P x l' (JValue_nested_ind x) (items_ind l')
            end) items)
        ((fix props_ind (l : list (string * JValue)) : Forall (fun p => P (snd p)) l :=
            match l with
            | [] => @List.Forall_nil _ _
            | p :: l' =>
                @List.Forall_cons _ (fun q => P (snd q)) p l'
                  (JValue_nested_ind (snd p)) (props_ind l')
            end) props)
  | JObj ref props =>
      Hobj ref props
        ((fix props_ind (l : list (string * JValue)) : Forall (fun p => P (snd p)) l :=
            match l with
            | [] => @List.Forall_nil _ _
            | p :: l' =>
                @List.Forall_cons _ (fun q => P (snd q)) p l'
                  (JValue_nested_ind (snd p)) (props_ind l')
            end) props)
  end.
End JValue_induction.

(** The state after the record [actual], at index [k], has been pushed for
    the filter [e]: the five updates at the [break] of [_orderedFilter]. *)
Definition push_match (st : MatchState) (e : ExtendedEventFilter) (k : nat)
    (actual : Log) : MatchState :=
  {| result := result st ++ [decodeEventData e actual];
     resultAddr := resultAddr st ++ [log_address actual];
     matched := <[k := true]> (matched st);
     prevActualIndex := Z.of_nat k;
     positions := positions st ++ [k] |}.

(** The invariant of the outer loop of [_orderedFilter] on [actuals], once
    the filters [done] have had their iteration. *)
Record Inv (actuals : list Log) (done : list ExtendedEventFilter) (st : MatchState)
  : Prop := {
  inv_matched_len : length (matched st) = length actuals;
  inv_prev : (-1 <= prevActualIndex st)%Z;
  inv_bound : forall p, p ∈ positions st -> (Z.of_nat p <= prevActualIndex st)%Z;
  inv_sorted : forall i j p q, (i < j)%nat ->
      positions st !! i = Some p -> positions st !! j = Some q -> (p < q)%nat;
  inv_nodup : NoDup (positions st);
  inv_matched : forall j, is_matched (matched st) j = true <-> j ∈ positions st;
  inv_result_len : length (result st) = length (positions st);
  inv_addr_len : length (resultAddr st) = length (positions st);
  inv_found : (length (positions st) <= length done)%nat;
  inv_assigned : length (positions st) = length done ->
      forall i f, done !! i = Some f ->
        exists p actual,
          positions st !! i = Some p /\ actuals !! p = Some actual /\
          candidate actual f = Ok true /\
          result st !! i = Some (decodeEventData f actual) /\
          resultAddr st !! i = Some (log_address actual)
}.

(** The filter [f] with other values to match after decoding. *)
Definition set_nonIndexed (f : ExtendedEventFilter) (values : option (list JValue))
  : ExtendedEventFilter :=
  {| filter_address := filter_address f;
     filter_topics := filter_topics f;
     nonIndexed := values;
     decodeEventData := decodeEventData f |}.

(** The map [filtersToDecoders] builds from one filter for [address] and
    [tag]. *)
Definition decoders_of (address tag : string) (decodeFn : EventDataDecoder)
  : gmap string (gmap string EventDataDecoder) :=
  <[toUpperCase address := <[tag := decodeFn]> ∅]> ∅.

(** No [null] occurs in [v]. *)
Fixpoint null_free (v : JValue) : bool :=
  match v with
  | JNull => false
  | JArr _ items props =>
      (forallb null_free items && forallb (fun p => null_free (snd p)) props)%bool
  | JObj _ props => forallb (fun p => null_free (snd p)) props
  | _ => true
  end.

(** A name that an array or an object answers to without having been
    given it: [length], or an inherited method. *)
Definition builtin_name (name : string) : bool :=
  (String.eqb name "length"
   || mem_string name (Array_prototype ++ Object_prototype))%bool.

(** The purely positional and the purely named form of the assignment of
    [values] to [params]. *)
Definition positional_form (ref : nat) (values : list JValue) : JValue :=
  JArr ref values [].

Definition named_form (ref : nat) (params : list ParamType) (values : list JValue)
  : JValue :=
  JObj ref (zip (map param_name params) values).

(** The locals agree but for [namedCount]. *)
Definition same_args (st1 st2 : BuildState) : Prop :=
  b_indexed st1 = b_indexed st2 /\ b_nonIndexed st1 = b_nonIndexed st2 /\
  b_hasNonIndexed st1 = b_hasNonIndexed st2.

(** [args] has the parameter [param], declared at [index]. *)
Definition param_present (args : JValue) (index : nat) (param : ParamType) : Prop :=
  get_prop args (KIdx index) <> JUndefined /\
  (param_name param <> "" -> get_prop args (KName (param_name param)) <> JUndefined).

(** ** Example data *)

(** Events of an emitter at 0xab; a record is decoded into its data, by
    index and under the name [value]. *)
Definition ex_decode : EventDataDecoder :=
  fun l => JArr 0 [JStr (log_data l)] [("value", JStr (log_data l))].

Definition ex_filter (tag : string) : ExtendedEventFilter :=
  {| filter_address := Some "0xab";
     filter_topics := Some [TopicStr tag];
     nonIndexed := None;
     decodeEventData := ex_decode |}.

Definition ex_log (tag data : string) : Log :=
  {| log_address := "0xAB"; log_topics := [tag]; log_data := data |}.

Definition ex_logs : list Log := [ex_log "B" "0"; ex_log "A" "1"; ex_log "B" "2"].

(** The state of [_orderedFilter] on [ex_logs] once the filter for "A"
    has matched the record at position 1. *)
Definition ex_state : MatchState :=
  push_match (init_state ex_logs) (ex_filter "A") 1 (ex_log "A" "1").

(** A filter for the tag "B" of any emitter. *)
Definition ex_filter_any : ExtendedEventFilter :=
  {| filter_address := None;
     filter_topics := Some [TopicStr "B"];
     nonIndexed := None;
     decodeEventData := ex_decode |}.

(** A decoded [BigNumber]. *)
Definition ex_bignumber : JValue :=
  JObj 3 [("_hex", JStr "0x05"); ("_isBigNumber", JBool true)].

(** A decoded event whose only argument is a struct holding a number, and
    a filter that expects a struct with any first field. *)
Definition ex_struct_result : JValue :=
  JArr 1 [JArr 2 [ex_bignumber] []] [].

Definition ex_struct_filter : ExtendedEventFilter :=
  {| filter_address := Some "0xab";
     filter_topics := Some [TopicStr "A"];
     nonIndexed := Some [JArr 4 [JNull] []];
     decodeEventData := fun _ => ex_struct_result |}.

(** [event Resized(uint256 length)] and
    [event Transfer(address indexed from, uint256 amount)]. *)
Definition ex_length_fragment : EventFragment :=
  {| fragment_name := "Resized";
     inputs := [ {| param_name := "length"; param_indexed := false |} ] |}.

Definition ex_transfer_fragment : EventFragment :=
  {| fragment_name := "Transfer";
     inputs := [ {| param_name := "from"; param_indexed := true |};
                 {| param_name := "amount"; param_indexed := false |} ] |}.

(** [event Store(uint256 value)], with the tag "B". *)
Definition ex_store_fragment : EventFragment :=
  {| fragment_name := "Store";
     inputs := [ {| param_name := "value"; param_indexed := false |} ] |}.

(** An interface whose decoder leaves out the named property. *)
Definition ex_interface : Interface :=
  {| getEvent := fun name =>
       if String.eqb name "Store" then Some ex_store_fragment else None;
     event_id := fun _ => "B";
     decodeEventLog := fun _ data _ => JArr 0 [JStr data] [] |}.

Definition ex_emitter : Contract :=
  {| contract_address := "0xab"; interface := ex_interface |}.

(** An interface that decodes a record into its data, by index and under
    the name [value]. *)
Definition ex_interface_named : Interface :=
  {| getEvent := fun name =>
       if String.eqb name "Store" then Some ex_store_fragment else None;
     event_id := fun _ => "B";
     decodeEventLog := fun _ data _ => JArr 0 [JStr data] [("value", JStr data)] |}.

Definition ex_emitter_named : Contract :=
  {| contract_address := "0xab"; interface := ex_interface_named |}.

(** ** Filters of a factory, listeners and transactions *)

(** The exceptions of the functions below: those above, and their own. *)
Inductive Raised : Type :=
| Failed (e : Failure)
| InvalidAddress (address : string)
| EncodingFailed (fragment : EventFragment)
| EventDetailsMissing
| BlockNumberMissing
| ReceiptUndefined
| StatusNotSuccess (status : option Z)
| Rejected (reason : string)
| InconsistentMaxIndexed (maxIndexed : Z) (inputs : nat).

Inductive Try (A : Type) : Type :=
| Done (a : A)
| Raise (e : Raised).
Arguments Done {A} a.
Arguments Raise {A} e.

Definition try_bind {A B : Type} (t : Try A) (k : A -> Try B) : Try B :=
  match t with
  | Done a => k a
  | Raise e => Raise e
  end.

Definition lift {A : Type} (r : Res A) : Try A :=
  match r with
  | Ok a => Done a
  | Err e => Raise (Failed e)
  end.

Notation "x <~ t ;;; k" := (try_bind t (fun x => k))
  (at level 100, t at next level, right associativity) : res_scope.

(** What [newExtendedEventFilter] uses of ethers besides the interface:
    [utils.isAddress], and [encodeFilterTopics], which may throw. *)
Record TopicEncoder : Type := {
  isAddress : string -> bool;
  encodeFilterTopics : EventFragment -> list JValue -> Try (list Topic)
}.

Definition newExtendedEventFilter (encoder : TopicEncoder) (eventName emitter : string)
    (decoder : Interface) (filter : JValue) : Try ExtendedEventFilter :=
  address <~ (if String.eqb emitter "*" then Done None
              else if isAddress encoder emitter then Done (Some emitter)
                   else Raise (InvalidAddress emitter)) ;;;
  fragment <~ lift (get_fragment decoder eventName) ;;;
  built <~ lift (_buildFilterArgs fragment filter) ;;;
  topics <~ encodeFilterTopics encoder fragment (fst built) ;;;
  Done {| filter_address := address;
          filter_topics := Some topics;
          nonIndexed := snd built;
          decodeEventData := fun log =>
            decodeEventLog decoder fragment (log_data log) (log_topics log) |}.

(** A transaction receipt, as far as it is read. *)
Record ContractReceipt : Type := {
  receipt_status : option Z;
  receipt_logs : list Log
}.

(** What a [ContractReceiptSource] resolves to: a receipt, or a transaction
    with its [wait], which may reject; the source itself may reject. *)
Inductive Resolved : Type :=
| IsReceipt (receipt : ContractReceipt)
| IsTransaction (wait : option nat -> Try (option ContractReceipt)).

Definition contractReceiptOf (av : Try Resolved) (confirmations : option nat)
  : Try (option ContractReceipt) :=
  v <~ av ;;;
  match v with
  | IsReceipt receipt => Done (Some receipt)
  | IsTransaction wait => wait confirmations
  end.

Definition successfulTransaction (transaction : Try Resolved) : Try ContractReceipt :=
  receipt <~ contractReceiptOf transaction (Some 1%nat) ;;;
  match receipt with
  | None => Raise ReceiptUndefined
  | Some r =>
      match receipt_status r with
      | Some 1%Z => Done r
      | status => Raise (StatusNotSuccess status)
      end
  end.

(** The event object a contract passes last to a listener. *)
Record Event : Type := {
  event_blockNumber : option Z;
  event_args : JValue
}.

(** The callback [captureEvents] registers, called with [args]. *)
Definition captured {T : Type} (react : Event -> Try T) (args : list Event) : Try T :=
  match last args with
  | None => Raise EventDetailsMissing
  | Some event =>
      match event_blockNumber event with
      | None => Raise BlockNumberMissing
      | Some _ => react event
      end
  end.

(** An [EventListener] with [_events], on one call of its callback. *)
Definition listener_receive {T : Type} (convert : Event -> Try T) (_events : list T)
    (args : list Event) : Try (list T) :=
  captured (fun event => e <~ convert event ;;; Done (_events ++ [e])) args.

Fixpoint listener_receive_all {T : Type} (convert : Event -> Try T) (_events : list T)
    (calls : list (list Event)) : Try (list T) :=
  match calls with
  | [] => Done _events
  | args :: calls' =>
      _events' <~ listener_receive convert _events args ;;;
      listener_receive_all convert _events' calls'
  end.

Section EventFactoryMore.
Variable encoder : TopicEncoder.
Variable customName : string.
Variable emitter : Contract.

(** [newFilter(filter, emitterAddress)]; [emitterAddress] may be absent. *)
Definition newFilter (filter : JValue) (emitterAddress : option string)
  : Try ExtendedEventFilter :=
  newExtendedEventFilter encoder customName
    (default (contract_address emitter) emitterAddress) (interface emitter) filter.

(** [expecteds.map((expected) => this.newFilter(expected))]. *)
Fixpoint newFilters (expecteds : list JValue) : Try (list ExtendedEventFilter) :=
  match expecteds with
  | [] => Done []
  | expected :: expecteds' =>
      f <~ newFilter expected None ;;;
      fs <~ newFilters expecteds' ;;;
      Done (f :: fs)
  end.

Definition expectOrdered (logs : list Log) (expecteds : list JValue)
    (forwardOnly : option bool) : Try (list JValue) :=
  filters <~ newFilters expecteds ;;;
  r <~ lift (expectEmittersAndEvents logs (default false forwardOnly) filters) ;;;
  Done (snd r).

(** The converter [newListener] gives to its [EventListener]. *)
Definition listener_convert (fragment : EventFragment) (event : Event) : Try JValue :=
  let args := if nullish (event_args event) then JObj 0 [] else event_args event in
  _ <~ lift (_verifyByFragment fragment customName args) ;;;
  Done args.

Definition newListener : Try (Event -> Try JValue) :=
  fragment <~ lift (get_fragment (interface emitter) customName) ;;;
  Done (listener_convert fragment).

Definition waitAll {R : Type} (source : Try Resolved)
    (fn : option (list JValue -> Res R)) : Try ContractReceipt :=
  receipt <~ successfulTransaction source ;;;
  _ <~ lift (all customName emitter (receipt_logs receipt) fn) ;;;
  Done receipt.
End EventFactoryMore.

(** ** The filter builder of the compiled module *)

(** [parseInt(key, 10)]; [None] is [NaN]. *)
Fixpoint digits_value (s : string) (acc : Z) : Z :=
  match s with
  | String c s' =>
      if is_digit c
      then digits_value s' (10 * acc + (Z.of_nat (nat_of_ascii c) - 48))%Z
      else acc
  | EmptyString => acc
  end.

Definition parseInt (key : string) : option Z :=
  let s := skip_spaces key in
  let signed :=
    match s with
    | String c s' =>
        if Ascii.eqb c "-" then (true, s')
        else if Ascii.eqb c "+" then (false, s') else (false, s)
    | EmptyString => (false, s)
    end in
  match snd signed with
  | String c _ =>
      if is_digit c
      then Some (if fst signed then (- digits_value (snd signed) 0)%Z
                 else digits_value (snd signed) 0)
      else None
  | EmptyString => None
  end.

Definition key_parseInt (key : Key) : option Z :=
  match key with
  | KIdx i => Some (Z.of_nat i)
  | KName s => parseInt s
  end.

(** The body of [for (const key in properties)], on the pair of
    [maxIndexed] and [namedCount]. *)
Definition dist_count_key (acc : Z * Z) (key : Key) : Z * Z :=
  match key_parseInt key with
  | None => (fst acc, (snd acc + 1)%Z)
  | Some v => if (fst acc <? v)%Z then (v, snd acc) else acc
  end.

Definition dist_count_keys (properties : JValue) : Z * Z :=
  fold_left dist_count_key (for_in_keys properties) ((-1)%Z, 0%Z).

(** The body of the [forEach] callback of the compiled module. *)
Definition dist_build_param (maxIndexed : Z) (properties : JValue) (st : BuildState)
    (param : ParamType) (index : nat) : Res BuildState :=
  let namedValue0 := get_prop properties (KName (param_name param)) in
  let value0 :=
    if (Z.of_nat index <=? maxIndexed)%Z
    then or_null (get_prop properties (KIdx index)) else JNull in
  let namedValue := if is_undefined namedValue0 then JNull else namedValue0 in
  let namedCount :=
    if is_undefined namedValue0 then b_namedCount st else (b_namedCount st - 1)%Z in
  value <- (if negb (is_null namedValue) then
              if is_null value0 then Ok namedValue
              else _ <- expect (strict_eq namedValue value0) InconsistentValue ;;;
                   Ok value0
            else Ok value0) ;;;
  if param_indexed param then
    Ok {| b_indexed := b_indexed st ++ [value];
          b_nonIndexed := b_nonIndexed st ++ [JNull];
          b_hasNonIndexed := b_hasNonIndexed st;
          b_namedCount := namedCount |}
  else
    Ok {| b_indexed := b_indexed st ++ [JNull];
          b_nonIndexed := b_nonIndexed st ++ [value];
          b_hasNonIndexed := (b_hasNonIndexed st || negb (is_null value))%bool;
          b_namedCount := namedCount |}.

Fixpoint dist_build_params (maxIndexed : Z) (properties : JValue)
    (params : list ParamType) (index : nat) (st : BuildState) : Res BuildState :=
  match params with
  | [] => Ok st
  | param :: params' =>
      st' <- dist_build_param maxIndexed properties st param index ;;;
      dist_build_params maxIndexed properties params' (S index) st'
  end.

(** [_buildFilterArgs] as compiled in [dist/tools/event-filters.js]; its
    first assertion is on [maxIndexed]. *)
Definition dist_buildFilterArgs (fragment : EventFragment) (properties : JValue)
  : Try (list JValue * option (list JValue)) :=
  let counted := dist_count_keys properties in
  let maxIndexed := fst counted in
  if negb (maxIndexed <? Z.of_nat (length (inputs fragment)))%Z
  then Raise (InconsistentMaxIndexed maxIndexed (length (inputs fragment)))
  else
    let st0 := {| b_indexed := []; b_nonIndexed := []; b_hasNonIndexed := false;
                  b_namedCount := snd counted |} in
    st <~ lift (if ((0 <? b_namedCount st0)%Z || (0 <=? maxIndexed)%Z)%bool then
                  st <- dist_build_params maxIndexed properties (inputs fragment) 0 st0 ;;;
                  _ <- expect (b_namedCount st =? 0)%Z
                              (InconsistentNamed (b_namedCount st)) ;;;
                  Ok st
                else Ok st0) ;;;
    Done (if b_hasNonIndexed st then (b_indexed st, Some (b_nonIndexed st))
          else (b_indexed st, None)).

(** ** Vocabulary of the further statements *)

(** The previous match, if any, is flagged as consumed. *)
Definition prev_consumed (st : MatchState) : Prop :=
  prevActualIndex st = (-1)%Z \/
  exists p, prevActualIndex st = Z.of_nat p /\ is_matched (matched st) p = true.

(** [qs] assigns to each filter of [fs], in order, a record it accepts,
    at strictly increasing positions after [lo]. *)
Definition accepts_at (actuals : list Log) (f : ExtendedEventFilter) (q : nat) : bool :=
  match actuals !! q with
  | Some actual =>
      match candidate actual f with
      | Ok true => true
      | _ => false
      end
  | None => false
  end.

Fixpoint assignable (actuals : list Log) (lo : Z) (fs : list ExtendedEventFilter)
    (qs : list nat) : bool :=
  match fs, qs with
  | [], [] => true
  | f :: fs', q :: qs' =>
      ((lo <? Z.of_nat q)%Z && accepts_at actuals f q
       && assignable actuals (Z.of_nat q) fs' qs')%bool
  | _, _ => false
  end.

(** The value matcher raises no exception on these records and filters. *)
Definition no_exception (actuals : list Log) (fs : list ExtendedEventFilter) : bool :=
  forallb (fun a => forallb (fun f => match candidate a f with
                                      | Ok _ => true
                                      | Err _ => false
                                      end) fs) actuals.

(** The loop [a0.some(...)] of [isDeepEqual], negated, from index [i]. *)
Fixpoint items_equal (l a1 : list JValue) (i : nat) : Res bool :=
  match l with
  | [] => Ok true
  | value :: l' =>
      eq <- isDeepEqual value (nth i a1 JUndefined) ;;;
      if eq then items_equal l' a1 (S i) else Ok false
  end.

(** The loop [for (const key of k0)] of [isDeepEqual], over the own
    properties [ps] of [v0]; [k1] are the own names of [v1]. *)
Fixpoint props_equal (ps : list (string * JValue)) (k1 : list Key) (v1 : JValue)
  : Res bool :=
  match ps with
  | [] => Ok true
  | (key, x) :: ps' =>
      if negb (existsb (Key_eqb (KName key)) k1) then Ok false
      else
        eq <- isDeepEqual x (get_prop v1 (KName key)) ;;;
        if eq then props_equal ps' k1 v1 else Ok false
  end.

Fixpoint distinct (names : list string) : bool :=
  match names with
  | [] => true
  | name :: names' => (negb (mem_string name names') && distinct names')%bool
  end.

(** No object within [v] has two properties of one name. *)
Fixpoint keys_distinct (v : JValue) : bool :=
  match v with
  | JArr _ items _ => forallb keys_distinct items
  | JObj _ props =>
      (distinct (map fst props) && forallb (fun p => keys_distinct (snd p)) props)%bool
  | _ => true
  end.

(** [decoders.get(emitter)?.get(topic)] for a topic that is there. *)
Definition decoder_for (decoders : gmap string (gmap string EventDataDecoder))
    (emitter topic : string) : option EventDataDecoder :=
  match decoders !! emitter with
  | Some subMap => subMap !! topic
  | None => None
  end.

(** The emitter and the topic under which [filtersToDecoders] files the
    decoder of [f], if it files it. *)
Definition filter_key (f : ExtendedEventFilter) : option (string * string) :=
  match filter_address f, filter_topics f with
  | Some address, Some (TopicStr eventType :: _) =>
      if truthy_string address then Some (toUpperCase address, eventType) else None
  | _, _ => None
  end.

Definition keyed (emitter topic : string) (f : ExtendedEventFilter) : bool :=
  match filter_key f with
  | Some (a, t) => (String.eqb a emitter && String.eqb t topic)%bool
  | None => false
  end.

(** The value [properties] gives to the parameter at [index] by position,
    the one it gives to [param] by name, and the one the filter builder
    settles on. *)
Definition positional_value (properties : JValue) (index : nat) : JValue :=
  if isArray properties then or_null (get_prop properties (KIdx index)) else JNull.

Definition named_value (properties : JValue) (param : ParamType) : JValue :=
  let v := get_prop properties (KName (param_name param)) in
  if is_undefined v then JNull else v.

Definition resolved_value (properties : JValue) (param : ParamType) (index : nat)
  : JValue :=
  if is_null (named_value properties param) then positional_value properties index
  else if is_null (positional_value properties index) then named_value properties param
  else positional_value properties index.

(** Position and name do not disagree on [param]. *)
Definition consistent (properties : JValue) (param : ParamType) (index : nat) : bool :=
  (is_null (named_value properties param)
   || is_null (positional_value properties index)
   || strict_eq (named_value properties param) (positional_value properties index))%bool.

(** The topic arguments and the values to match after decoding, for the
    parameters [params] declared from [index] on. *)
Definition indexed_args (properties : JValue) (params : list ParamType) (index : nat)
  : list JValue :=
  imap (fun i param => if param_indexed param
                       then resolved_value properties param (index + i) else JNull) params.

Definition nonIndexed_args (properties : JValue) (params : list ParamType) (index : nat)
  : list JValue :=
  imap (fun i param => if param_indexed param
                       then JNull else resolved_value properties param (index + i)) params.

(** Some parameter that is not indexed is given a value. *)
Definition any_nonIndexed (properties : JValue) (params : list ParamType) (index : nat)
  : bool :=
  existsb (fun v => negb (is_null v)) (nonIndexed_args properties params index).

(** [properties] has no enumerable key at all. *)
Definition empty_spec (properties : JValue) : bool :=
  (Z.eqb (count_named properties) 0 && Nat.eqb (array_length properties) 0)%bool.

(** [param] is given by name in [properties]. *)
Definition given_by_name (properties : JValue) (param : ParamType) : bool :=
  negb (is_undefined (get_prop properties (KName (param_name param)))).

(** [args] has, equal ([===]), the value [expected] holds under [key]. *)
Definition entry_matches (args : JValue) (entry : Key * JValue) : Prop :=
  nullish (snd entry) = false -> strict_eq (get_prop args (fst entry)) (snd entry) = true.

(** The records of [logs] that [findEventArgs] decodes for [emitter] and
    the event [fragment]. *)
Definition emitted (emitter : Contract) (fragment : EventFragment) (logs : list Log)
  : list Log :=
  List.filter (emitted_by (event_id (interface emitter) fragment)
                          (toUpperCase (contract_address emitter))) logs.

Definition decoded (emitter : Contract) (fragment : EventFragment) (entry : Log)
  : JValue :=
  decodeEventLog (interface emitter) fragment (log_data entry) (log_topics entry).

(** The record [actual] with the address [a], and the filter [f] for the
    address [a]. *)
Definition set_log_address (actual : Log) (a : string) : Log :=
  {| log_address := a; log_topics := log_topics actual; log_data := log_data actual |}.

Definition set_filter_address (f : ExtendedEventFilter) (a : string)
  : ExtendedEventFilter :=
  {| filter_address := Some a;
     filter_topics := filter_topics f;
     nonIndexed := nonIndexed f;
     decodeEventData := decodeEventData f |}.

(** The names of the own properties of [properties]. *)
Definition named_keys (properties : JValue) : list string :=
  match properties with
  | JArr _ _ props | JObj _ props => map fst props
  | _ => []
  end.

(** Both builders return the same, or both fail. *)
Definition builders_agree (d : Try (list JValue * option (list JValue)))
    (s : Res (list JValue * option (list JValue))) : Prop :=
  match d, s with
  | Done a, Ok b => a = b
  | Raise _, Err _ => True
  | _, _ => False
  end.

(** ** Further example data *)

(** An encoder that takes 0x... for an address and encodes the tag. *)
Definition ex_encoder : TopicEncoder :=
  {| isAddress := String.prefix "0x";
     encodeFilterTopics := fun _ _ => Done [TopicStr "B"] |}.

Definition ex_event (block : Z) (data : string) : Event :=
  {| event_blockNumber := Some block;
     event_args := JArr 0 [JStr data] [("value", JStr data)] |}.

Definition ex_receipt : ContractReceipt :=
  {| receipt_status := Some 1%Z; receipt_logs := ex_logs |}.

(** The arguments a listener keeps of [event]. *)
Definition kept_args (event : Event) : JValue :=
  if nullish (event_args event) then JObj 0 [] else event_args event.

(** * Properties *)

(** ** The error monad *)

Lemma bind_Ok {A B : Type} (r : Res A) (k : A -> Res B) (b : B) :
  bind r k = Ok b -> exists a, r = Ok a /\ k a = Ok b.
Proof. destruct r as [a|e]; simpl; [eauto | discriminate]. Qed.

Lemma bind_Err {A B : Type} (r : Res A) (k : A -> Res B) (e : Failure) :
  bind r k = Err e -> r = Err e \/ exists a, r = Ok a /\ k a = Err e.
Proof. destruct r as [a|e']; simpl; [eauto | intros [= ->]; auto]. Qed.

Lemma expect_Ok (cond : bool) (e : Failure) (u : unit) :
  expect cond e = Ok u -> cond = true.
Proof. destruct cond; simpl; [reflexivity | discriminate]. Qed.

Lemma expect_Err (cond : bool) (e e' : Failure) :
  expect cond e = Err e' -> cond = false /\ e' = e.
Proof. destruct cond; simpl; [discriminate | intros [= ->]; auto]. Qed.

(** ** Value matcher: the only exception is the [TypeError] *)

Lemma isDeepEqual_Err (v0 : JValue) :
  forall v1 e, isDeepEqual v0 v1 = Err e -> e = TypeErrorNullToObject.
Proof.
  induction v0 as [| | | | | | ref items props IHitems _ | ref props IHprops]
    using JValue_nested_ind; intros v1 e;
    try (destruct v1; simpl; congruence).
  - (* arrays: the [some] loop *)
    destruct v1 as [| | | | | | ref1 a1 props1 |]; simpl; try congruence.
    destruct (Nat.eqb (length items) (length a1)); [| congruence].
    generalize 0%nat.
    induction IHitems as [| x l Hx _ IHl]; intros i H; [discriminate |].
    apply bind_Err in H as [H | (eq & _ & H)]; [eauto |].
    destruct eq; [eauto | discriminate].
  - (* objects: the loop over the keys of [v0] *)
    simpl. destruct (typeof v1); simpl; try congruence.
    intros H. apply bind_Err in H as [H | (k1 & _ & H)].
    + destruct v1; simpl in H; congruence.
    + destruct (negb (Nat.eqb (length props) (length k1))); [discriminate |].
      induction IHprops as [| [key x] l Hx _ IHl]; [discriminate |].
      destruct (negb (existsb (Key_eqb (KName key)) k1)); [discriminate |].
      apply bind_Err in H as [H | (eq & _ & H)]; [eauto |].
      destruct eq; [eauto | discriminate].
Qed.

Lemma matchProperties_Err (actual : JValue) (expected : list JValue) (e : Failure) :
  _matchProperties actual expected = Err e -> e = TypeErrorNullToObject.
Proof.
  unfold _matchProperties. generalize 0%nat.
  induction expected as [| value expected IH]; intros index; simpl; [congruence |].
  destruct (nullish value); [eauto |].
  intros H. apply bind_Err in H as [H | (eq & _ & H)].
  - eauto using isDeepEqual_Err.
  - destruct eq; [eauto | congruence].
Qed.

Lemma candidate_Err (actual : Log) (expected : ExtendedEventFilter) (e : Failure) :
  candidate actual expected = Err e -> e = TypeErrorNullToObject.
Proof.
  unfold candidate. destruct (_matchTopics actual expected); [| congruence].
  destruct (nonIndexed expected); [| congruence].
  apply matchProperties_Err.
Qed.

(** ** Ordered matcher: the inner loop *)

Lemma scan_cons (e : ExtendedEventFilter) (m : list bool) (prev : Z) (j : nat)
    (actual : Log) (rest : list Log) :
  scan e m prev j (actual :: rest) =
    if is_matched m j then scan e m prev (S j) rest
    else
      c <- candidate actual e ;;;
      if c then
        _ <- expect (prev <? Z.of_nat j)%Z (WrongOrderOfEvents j prev) ;;;
        Ok (Found j (decodeEventData e actual) (log_address actual))
      else scan e m prev (S j) rest.
Proof.
  unfold candidate. simpl. destruct (is_matched m j); [reflexivity |].
  destruct (_matchTopics actual e); [| reflexivity].
  destruct (nonIndexed e); reflexivity.
Qed.

(** A record the loop stops at was not consumed, is accepted by the
    filter, and lies after the previous match. *)
Lemma scan_Found (e : ExtendedEventFilter) (m : list bool) (prev : Z) (rest : list Log) :
  forall j k d a,
    scan e m prev j rest = Ok (Found k d a) ->
    (j <= k)%nat /\
    exists actual, rest !! (k - j)%nat = Some actual /\
      is_matched m k = false /\ candidate actual e = Ok true /\
      d = decodeEventData e actual /\ a = log_address actual /\
      (prev < Z.of_nat k)%Z.
Proof.
  induction rest as [| actual rest IH]; intros j k d a H; [discriminate |].
  rewrite scan_cons in H.
  assert (Hnext : scan e m prev (S j) rest = Ok (Found k d a) ->
                  (j <= k)%nat /\
                  exists actual0, (actual :: rest) !! (k - j)%nat = Some actual0 /\
                    is_matched m k = false /\ candidate actual0 e = Ok true /\
                    d = decodeEventData e actual0 /\ a = log_address actual0 /\
                    (prev < Z.of_nat k)%Z).
  { intros H'. apply IH in H' as (Hle & actual0 & Hl & Hrest).
    split; [lia |]. exists actual0. split; [| exact Hrest].
    replace (k - j)%nat with (S (k - S j)) by lia. exact Hl. }
  destruct (is_matched m j) eqn:Hm; [auto |].
  apply bind_Ok in H as (c & Hc & H). destruct c; [| auto].
  apply bind_Ok in H as (u & Hu & H). apply expect_Ok in Hu.
  injection H as <- <- <-. split; [lia |]. exists actual.
  rewrite Nat.sub_diag. repeat split; auto. lia.
Qed.

(** The loop stops at the first record that is neither consumed nor
    rejected, whatever follows it. *)
Lemma scan_first (e : ExtendedEventFilter) (m : list bool) (prev : Z) (rest : list Log) :
  forall j k actual,
    rest !! k = Some actual ->
    is_matched m (j + k) = false ->
    candidate actual e = Ok true ->
    (forall i a, (i < k)%nat -> rest !! i = Some a ->
                 is_matched m (j + i) = true \/ candidate a e = Ok false) ->
    scan e m prev j rest =
      if (prev <? Z.of_nat (j + k))%Z
      then Ok (Found (j + k) (decodeEventData e actual) (log_address actual))
      else Err (WrongOrderOfEvents (j + k) prev).
Proof.
  induction rest as [| actual0 rest IH]; intros j k actual Hk Hm Hc Hskip; [discriminate |].
  rewrite scan_cons. destruct k as [| k].
  - injection Hk as ->. rewrite Nat.add_0_r in *. rewrite Hm, Hc. simpl.
    destruct (prev <? Z.of_nat j)%Z; reflexivity.
  - replace (j + S k)%nat with (S j + k)%nat in * by lia.
    assert (Hrest : scan e m prev (S j) rest =
              if (prev <? Z.of_nat (S j + k))%Z
              then Ok (Found (S j + k) (decodeEventData e actual) (log_address actual))
              else Err (WrongOrderOfEvents (S j + k) prev)).
    { apply IH; auto. intros i a Hi Ha.
      replace (S j + i)%nat with (j + S i)%nat by lia.
      apply (Hskip (S i) a); [lia | exact Ha]. }
    destruct (Hskip 0%nat actual0) as [H0 | H0]; [lia | reflexivity | |].
    + rewrite Nat.add_0_r in H0. rewrite H0. exact Hrest.
    + rewrite H0. simpl. destruct (is_matched m j); exact Hrest.
Qed.

(** A search that starts after the previous match cannot break the order. *)
Lemma scan_forward_Err (e : ExtendedEventFilter) (m : list bool) (prev : Z) (rest : list Log) :
  forall j err,
    (prev < Z.of_nat j)%Z ->
    scan e m prev j rest = Err err -> err = TypeErrorNullToObject.
Proof.
  induction rest as [| actual rest IH]; intros j err Hj H; [discriminate |].
  rewrite scan_cons in H.
  assert (Hnext : scan e m prev (S j) rest = Err err -> err = TypeErrorNullToObject).
  { apply IH. lia. }
  destruct (is_matched m j); [auto |].
  apply bind_Err in H as [H | (c & _ & H)]; [eauto using candidate_Err |].
  destruct c; [| auto].
  apply Z.ltb_lt in Hj. rewrite Hj in H. discriminate.
Qed.

Lemma step_Ok (fo : bool) (actuals : list Log) (st st' : MatchState)
    (e : ExtendedEventFilter) :
  step fo actuals st e = Ok st' ->
  st' = st \/
  exists k actual,
    actuals !! k = Some actual /\ is_matched (matched st) k = false /\
    candidate actual e = Ok true /\ (prevActualIndex st < Z.of_nat k)%Z /\
    st' = push_match st e k actual.
Proof.
  unfold step. intros H. apply bind_Ok in H as (s & Hs & H).
  destruct s as [k d a |]; [| injection H as <-; auto].
  right. apply scan_Found in Hs as (Hle & actual & Hl & Hm & Hc & -> & -> & Hp).
  rewrite lookup_drop in Hl. replace (_ + (k - _))%nat with k in Hl by lia.
  exists k, actual. injection H as <-. auto.
Qed.

Lemma is_matched_insert (m : list bool) (k j : nat) :
  (k < length m)%nat ->
  is_matched (<[k := true]> m) j = true <-> j = k \/ is_matched m j = true.
Proof.
  intros Hk. unfold is_matched. destruct (decide (j = k)) as [-> | Hne].
  - rewrite list_lookup_insert_eq by exact Hk. simpl. tauto.
  - rewrite list_lookup_insert_ne by congruence. split; [auto | intros [? | ?]; [lia | auto]].
Qed.

Lemma Inv_init (actuals : list Log) : Inv actuals [] (init_state actuals).
Proof.
  constructor; simpl; try done.
  - apply length_replicate.
  - intros p Hp. apply elem_of_nil in Hp as [].
  - apply NoDup_nil_2.
  - intros j. unfold is_matched. split.
    + destruct (replicate (length actuals) false !! j) as [b |] eqn:Hj; [| done].
      apply lookup_replicate in Hj as [-> _]. done.
    + intros Hj. apply elem_of_nil in Hj as [].
Qed.

Lemma Inv_step (fo : bool) (actuals : list Log) (done : list ExtendedEventFilter)
    (st st' : MatchState) (e : ExtendedEventFilter) :
  Inv actuals done st -> step fo actuals st e = Ok st' ->
  Inv actuals (done ++ [e]) st'.
Proof.
  intros I H. apply step_Ok in H as [-> | (k & actual & Hk & Hm & Hc & Hp & ->)].
  - (* no record found: nothing is pushed *)
    destruct I. constructor; auto.
    + rewrite length_app. simpl. lia.
    + rewrite length_app. simpl. lia.
  - (* the record at [k] is pushed *)
    pose proof (lookup_lt_Some _ _ _ Hk) as Hlt.
    assert (Hfresh : k ∉ positions st).
    { intros Hin. apply (inv_matched _ _ _ I) in Hin. congruence. }
    destruct I. constructor; simpl.
    + rewrite length_insert. assumption.
    + lia.
    + intros p Hin. apply elem_of_app in Hin as [Hin | Hin].
      * apply inv_bound0 in Hin. lia.
      * apply list_elem_of_singleton in Hin as ->. lia.
    + intros i j p q Hij Hi Hj.
      apply lookup_snoc_Some in Hj as [[Hjl Hj] | [-> <-]].
      * rewrite lookup_app_l in Hi by lia. eauto.
      * rewrite lookup_app_l in Hi by lia.
        apply list_elem_of_lookup_2 in Hi. apply inv_bound0 in Hi. lia.
    + apply NoDup_app. split; [assumption |]. split.
      * intros x Hx Hx'. apply list_elem_of_singleton in Hx' as ->. auto.
      * apply NoDup_singleton.
    + intros j. rewrite is_matched_insert by lia. rewrite elem_of_app.
      rewrite list_elem_of_singleton. rewrite inv_matched0. tauto.
    + rewrite !length_app. simpl. lia.
    + rewrite !length_app. simpl. lia.
    + rewrite !length_app. simpl. lia.
    + rewrite !length_app. simpl. intros Hlen i f Hi.
      assert (Hlen' : length (positions st) = length done) by lia.
      apply lookup_snoc_Some in Hi as [[Hil Hi] | [-> <-]].
      * destruct (inv_assigned0 Hlen' i f Hi) as (p & a & Hp1 & Hp2 & Hp3 & Hp4 & Hp5).
        exists p, a. rewrite !lookup_app_l by lia. auto.
      * exists k, actual.
        repeat split; auto; apply list_lookup_middle; lia.
Qed.

Lemma Inv_outer_loop (fo : bool) (actuals : list Log) (es : list ExtendedEventFilter) :
  forall done st st',
    Inv actuals done st -> outer_loop fo actuals es st = Ok st' ->
    Inv actuals (done ++ es) st'.
Proof.
  induction es as [| e es IH]; intros done st st' I H; simpl in H.
  - injection H as <-. rewrite app_nil_r. exact I.
  - apply bind_Ok in H as (st1 & H1 & H).
    replace (done ++ e :: es) with ((done ++ [e]) ++ es) by (rewrite <- app_assoc; reflexivity).
    eapply IH; [| exact H]. eapply Inv_step; eauto.
Qed.

Lemma orderedFilter_state_Inv (actuals : list Log) (expecteds : list ExtendedEventFilter)
    (fo : bool) (st : MatchState) :
  orderedFilter_state actuals expecteds fo = Ok st ->
  Inv actuals expecteds st /\ length (positions st) = length expecteds.
Proof.
  unfold orderedFilter_state. intros H.
  apply bind_Ok in H as (st' & Hloop & H). apply bind_Ok in H as (u & Hu & H).
  injection H as <-. apply expect_Ok in Hu. apply Nat.eqb_eq in Hu.
  apply (Inv_outer_loop fo actuals expecteds [] _ _ (Inv_init actuals)) in Hloop.
  simpl in Hloop. split; [exact Hloop |].
  rewrite <- (inv_result_len _ _ _ Hloop). exact Hu.
Qed.

Lemma outer_loop_app (fo : bool) (actuals : list Log) (es1 es2 : list ExtendedEventFilter) :
  forall st,
    outer_loop fo actuals (es1 ++ es2) st =
      (st1 <- outer_loop fo actuals es1 st ;;; outer_loop fo actuals es2 st1).
Proof.
  induction es1 as [| e es1 IH]; intros st; simpl; [reflexivity |].
  destruct (step fo actuals st e) as [st1 | err]; simpl; [apply IH | reflexivity].
Qed.

Lemma orderedFilter_Ok (actuals : list Log) (expecteds : list ExtendedEventFilter)
    (fo : bool) (r : list string * list JValue) :
  _orderedFilter actuals expecteds fo = Ok r ->
  exists st, orderedFilter_state actuals expecteds fo = Ok st /\
             r = (resultAddr st, result st).
Proof.
  unfold _orderedFilter. intros H. apply bind_Ok in H as (st & Hst & H).
  injection H as <-. eauto.
Qed.

Lemma step_forward_Err (actuals : list Log) (st : MatchState)
    (e : ExtendedEventFilter) (err : Failure) :
  (-1 <= prevActualIndex st)%Z ->
  step true actuals st e = Err err -> err = TypeErrorNullToObject.
Proof.
  unfold step. intros Hp H. apply bind_Err in H as [H | (s & _ & H)].
  - apply scan_forward_Err in H; [exact H | lia].
  - destruct s; discriminate.
Qed.

Lemma outer_loop_forward_Err (actuals : list Log) (es : list ExtendedEventFilter) :
  forall done st err,
    Inv actuals done st ->
    outer_loop true actuals es st = Err err -> err = TypeErrorNullToObject.
Proof.
  induction es as [| e es IH]; intros done st err I H; simpl in H; [discriminate |].
  apply bind_Err in H as [H | (st1 & H1 & H)].
  - eapply step_forward_Err; [| exact H]. apply (inv_prev _ _ _ I).
  - eapply (IH (done ++ [e])); [| exact H]. eapply Inv_step; eauto.
Qed.

(** ** The claims on the ordered matcher *)

(** C1, as amended.  With [forwardOnly = false] the scan of a filter stops
    at the first record that is not consumed and that the filter accepts
    (topics and values), whatever lies after it: when that record is after
    the previous match it is the one chosen, and otherwise the call fails
    there with the ordering violation, without looking for a later
    candidate. *)
Theorem orderedFilter_stops_at_first_candidate (actuals : list Log) (st : MatchState)
    (e : ExtendedEventFilter) (k : nat) (actual : Log) :
  actuals !! k = Some actual ->
  is_matched (matched st) k = false ->
  candidate actual e = Ok true ->
  (forall i a, (i < k)%nat -> actuals !! i = Some a ->
               is_matched (matched st) i = true \/ candidate a e = Ok false) ->
  step false actuals st e =
    if (prevActualIndex st <? Z.of_nat k)%Z
    then Ok (push_match st e k actual)
    else Err (WrongOrderOfEvents k (prevActualIndex st)).
Proof.
  intros Hk Hm Hc Hskip. unfold step. rewrite drop_0.
  rewrite (scan_first e (matched st) (prevActualIndex st) actuals 0 k actual); auto.
  simpl. destruct (prevActualIndex st <? Z.of_nat k)%Z; reflexivity.
Qed.

Lemma orderedFilter_stops_at_first_candidate_instance :
  step false ex_logs ex_state (ex_filter "B") = Err (WrongOrderOfEvents 0 1).
Proof.
  apply (orderedFilter_stops_at_first_candidate
           ex_logs ex_state (ex_filter "B") 0 (ex_log "B" "0")).
  - reflexivity.
  - reflexivity.
  - reflexivity.
  - intros i a Hi. lia.
Defined.

(** C1 fails as stated: after "A" matched at position 1, the filter for "B"
    has an unconsumed, accepted record at the later position 2, and yet the
    call fails with the ordering violation raised at position 0. *)
Lemma orderedFilter_skips_later_candidate :
  outer_loop false ex_logs [ex_filter "A"] (init_state ex_logs) = Ok ex_state /\
  ex_logs !! 2%nat = Some (ex_log "B" "2") /\
  is_matched (matched ex_state) 2 = false /\
  candidate (ex_log "B" "2") (ex_filter "B") = Ok true /\
  (prevActualIndex ex_state < 2)%Z /\
  step false ex_logs ex_state (ex_filter "B") = Err (WrongOrderOfEvents 0 1) /\
  _orderedFilter ex_logs [ex_filter "A"; ex_filter "B"] false
    = Err (WrongOrderOfEvents 0 1).
Proof. vm_compute. repeat split; reflexivity. Qed.

(** C2.  Whenever [_orderedFilter] returns, with either value of
    [forwardOnly], it has pushed one record per filter, the i-th result is
    the decoding of the record at the i-th recorded position, and these
    positions strictly increase. *)
Theorem orderedFilter_positions_increase (actuals : list Log)
    (expecteds : list ExtendedEventFilter) (forwardOnly : bool)
    (r : list string * list JValue) :
  _orderedFilter actuals expecteds forwardOnly = Ok r ->
  exists st,
    orderedFilter_state actuals expecteds forwardOnly = Ok st /\
    r = (resultAddr st, result st) /\
    length (positions st) = length expecteds /\
    (forall i p, positions st !! i = Some p ->
       exists f actual,
         expecteds !! i = Some f /\ actuals !! p = Some actual /\
         result st !! i = Some (decodeEventData f actual)) /\
    forall i j p q, (i < j)%nat ->
      positions st !! i = Some p -> positions st !! j = Some q -> (p < q)%nat.
Proof.
  intros H. apply orderedFilter_Ok in H as (st & Hst & ->).
  exists st. apply orderedFilter_state_Inv in Hst as Hinv. destruct Hinv as [I Hlen].
  repeat split; auto; [| apply (inv_sorted _ _ _ I)].
  intros i p Hp. pose proof (lookup_lt_Some _ _ _ Hp) as Hi. rewrite Hlen in Hi.
  apply lookup_lt_is_Some in Hi as [f Hf].
  destruct (inv_assigned _ _ _ I Hlen i f Hf) as (p' & a & Hp' & Ha & _ & Hr & _).
  assert (p' = p) as -> by congruence. eauto.
Qed.

Lemma orderedFilter_positions_increase_instance :
  _orderedFilter ex_logs [ex_filter "A"; ex_filter "B"] true
    = Ok (["0xAB"; "0xAB"], [ex_decode (ex_log "A" "1"); ex_decode (ex_log "B" "2")]) /\
  exists st,
    orderedFilter_state ex_logs [ex_filter "A"; ex_filter "B"] true = Ok st /\
    (["0xAB"; "0xAB"], [ex_decode (ex_log "A" "1"); ex_decode (ex_log "B" "2")])
      = (resultAddr st, result st) /\
    length (positions st) = length [ex_filter "A"; ex_filter "B"] /\
    (forall i p, positions st !! i = Some p ->
       exists f actual,
         [ex_filter "A"; ex_filter "B"] !! i = Some f /\ ex_logs !! p = Some actual /\
         result st !! i = Some (decodeEventData f actual)) /\
    forall i j p q, (i < j)%nat ->
      positions st !! i = Some p -> positions st !! j = Some q -> (p < q)%nat.
Proof.
  split; [reflexivity |].
  apply (orderedFilter_positions_increase ex_logs [ex_filter "A"; ex_filter "B"] true).
  reflexivity.
Defined.

(** C3.  [_orderedFilter] either fails or returns exactly one decoded
    result and one address per filter, in filter order, each the decoding
    of a record the filter accepts; and when the iteration of some filter
    ends without a match (it leaves the state as it was), the whole call
    fails: no partial result is returned. *)
Theorem orderedFilter_all_or_nothing (actuals : list Log)
    (expecteds : list ExtendedEventFilter) (forwardOnly : bool) :
  (forall addrs res,
      _orderedFilter actuals expecteds forwardOnly = Ok (addrs, res) ->
      length res = length expecteds /\ length addrs = length expecteds /\
      forall i f, expecteds !! i = Some f ->
        exists p actual,
          actuals !! p = Some actual /\ candidate actual f = Ok true /\
          res !! i = Some (decodeEventData f actual) /\
          addrs !! i = Some (log_address actual)) /\
  (forall done e rest st,
      expecteds = done ++ e :: rest ->
      outer_loop forwardOnly actuals done (init_state actuals) = Ok st ->
      step forwardOnly actuals st e = Ok st ->
      exists err, _orderedFilter actuals expecteds forwardOnly = Err err).
Proof.
  split.
  - intros addrs res H. apply orderedFilter_Ok in H as (st & Hst & [= -> ->]).
    apply orderedFilter_state_Inv in Hst as [I Hlen].
    rewrite (inv_result_len _ _ _ I), (inv_addr_len _ _ _ I).
    repeat split; auto. intros i f Hf.
    destruct (inv_assigned _ _ _ I Hlen i f Hf) as (p & a & _ & Ha & Hc & Hr & Haddr).
    eauto 6.
  - intros done e rest st -> Hdone Hstep.
    unfold _orderedFilter, orderedFilter_state.
    destruct (outer_loop forwardOnly actuals (done ++ e :: rest) (init_state actuals))
      as [st' | err] eqn:Hloop; simpl; [| eauto].
    rewrite outer_loop_app, Hdone in Hloop. simpl in Hloop. rewrite Hstep in Hloop.
    simpl in Hloop.
    pose proof (Inv_outer_loop forwardOnly actuals done [] _ _ (Inv_init actuals) Hdone) as I.
    simpl in I.
    pose proof (Inv_outer_loop forwardOnly actuals rest done _ _ I Hloop) as I'.
    pose proof (inv_found _ _ _ I') as Hle. rewrite <- (inv_result_len _ _ _ I') in Hle.
    rewrite length_app in *. simpl.
    destruct (Nat.eqb_spec (length (result st')) (length done + S (length rest))) as [Heq | Hne];
      [lia |]. simpl. eauto.
Qed.

Lemma orderedFilter_all_or_nothing_instance :
  (length [ex_decode (ex_log "A" "1"); ex_decode (ex_log "B" "2")]
     = length [ex_filter "A"; ex_filter "B"]) /\
  (exists err, _orderedFilter ex_logs [ex_filter "A"; ex_filter "C"; ex_filter "B"] true
               = Err err).
Proof.
  split.
  - apply (proj1 (orderedFilter_all_or_nothing ex_logs [ex_filter "A"; ex_filter "B"] true)
             ["0xAB"; "0xAB"] [ex_decode (ex_log "A" "1"); ex_decode (ex_log "B" "2")]).
    reflexivity.
  - apply (proj2 (orderedFilter_all_or_nothing ex_logs
                    [ex_filter "A"; ex_filter "C"; ex_filter "B"] true)
             [ex_filter "A"] (ex_filter "C") [ex_filter "B"] ex_state).
    + reflexivity.
    + reflexivity.
    + reflexivity.
Defined.

(** C4.  Whenever [_orderedFilter] returns, the positions of the records
    it pushed are pairwise distinct, so no record serves two filters, and
    the consumed flags [matched] mark exactly these positions. *)
Theorem orderedFilter_positions_disjoint (actuals : list Log)
    (expecteds : list ExtendedEventFilter) (forwardOnly : bool)
    (r : list string * list JValue) :
  _orderedFilter actuals expecteds forwardOnly = Ok r ->
  exists st,
    orderedFilter_state actuals expecteds forwardOnly = Ok st /\
    r = (resultAddr st, result st) /\
    NoDup (positions st) /\
    (forall i j p, positions st !! i = Some p -> positions st !! j = Some p -> i = j) /\
    (forall p, is_matched (matched st) p = true <-> p ∈ positions st).
Proof.
  intros H. apply orderedFilter_Ok in H as (st & Hst & ->).
  exists st. apply orderedFilter_state_Inv in Hst as Hinv. destruct Hinv as [I Hlen].
  pose proof (inv_nodup _ _ _ I) as Hnd.
  repeat split; auto.
  - intros i j p Hi Hj. eapply NoDup_lookup; eauto.
  - apply (inv_matched _ _ _ I).
  - apply (inv_matched _ _ _ I).
Qed.

Lemma orderedFilter_positions_disjoint_instance :
  _orderedFilter ex_logs [ex_filter "B"; ex_filter "B"] false
    = Ok (["0xAB"; "0xAB"], [ex_decode (ex_log "B" "0"); ex_decode (ex_log "B" "2")]) /\
  exists st,
    orderedFilter_state ex_logs [ex_filter "B"; ex_filter "B"] false = Ok st /\
    (["0xAB"; "0xAB"], [ex_decode (ex_log "B" "0"); ex_decode (ex_log "B" "2")])
      = (resultAddr st, result st) /\
    NoDup (positions st) /\
    (forall i j p, positions st !! i = Some p -> positions st !! j = Some p -> i = j) /\
    (forall p, is_matched (matched st) p = true <-> p ∈ positions st).
Proof.
  split; [reflexivity |].
  apply (orderedFilter_positions_disjoint ex_logs [ex_filter "B"; ex_filter "B"] false).
  reflexivity.
Defined.

(** C5.  With [forwardOnly = true] the search of a filter starts strictly
    after the previous match: a record it matches lies after that match,
    the records at or before it have no influence on the outcome, and the
    ordering assertion cannot fail, neither in one iteration nor in a
    whole call. *)
Theorem forwardOnly_search_starts_after_previous (actuals : list Log)
    (st : MatchState) (e : ExtendedEventFilter) :
  (-1 <= prevActualIndex st)%Z ->
  (forall st', step true actuals st e = Ok st' ->
     st' = st \/
     exists k actual,
       (prevActualIndex st < Z.of_nat k)%Z /\ actuals !! k = Some actual /\
       st' = push_match st e k actual) /\
  (forall actuals',
     drop (Z.to_nat (prevActualIndex st + 1)) actuals'
       = drop (Z.to_nat (prevActualIndex st + 1)) actuals ->
     step true actuals' st e = step true actuals st e) /\
  (forall j p, step true actuals st e <> Err (WrongOrderOfEvents j p)) /\
  (forall expecteds j p,
     _orderedFilter actuals expecteds true <> Err (WrongOrderOfEvents j p)).
Proof.
  intros Hprev. repeat split.
  - intros st' H. apply step_Ok in H as [-> | (k & actual & Hk & _ & _ & Hp & ->)];
      [auto | right; eauto].
  - intros actuals' Hdrop. unfold step. rewrite Hdrop. reflexivity.
  - intros j p H. apply step_forward_Err in H; [discriminate | exact Hprev].
  - intros expecteds j p H. unfold _orderedFilter, orderedFilter_state in H.
    apply bind_Err in H as [H | (st1 & _ & H)]; [| discriminate].
    apply bind_Err in H as [H | (st1 & _ & H)].
    + apply (outer_loop_forward_Err actuals expecteds [] _ _ (Inv_init actuals)) in H.
      discriminate.
    + apply bind_Err in H as [H | (u & _ & H)]; [| discriminate].
      apply expect_Err in H as [_ H]. discriminate.
Qed.

Lemma forwardOnly_search_starts_after_previous_instance :
  (-1 <= prevActualIndex ex_state)%Z /\
  step true ex_logs ex_state (ex_filter "B")
    = Ok (push_match ex_state (ex_filter "B") 2 (ex_log "B" "2")) /\
  step true (ex_log "B" "9" :: ex_log "B" "8" :: drop 2 ex_logs) ex_state (ex_filter "B")
    = step true ex_logs ex_state (ex_filter "B").
Proof.
  assert (Hprev : (-1 <= prevActualIndex ex_state)%Z) by (simpl; lia).
  pose proof (forwardOnly_search_starts_after_previous
                ex_logs ex_state (ex_filter "B") Hprev) as (_ & Hprefix & _).
  split; [exact Hprev |]. split; [reflexivity |].
  apply Hprefix. reflexivity.
Defined.

(** ** Log decoder *)

Lemma decodeEventLogs_single (address tag : string) (decodeFn : EventDataDecoder)
    (logs : list Log) :
  decodeEventLogs logs
    (fun emitter topic =>
       match decoders_of address tag decodeFn !! emitter, topic with
       | Some subMap, Some t => subMap !! t
       | _, _ => None
       end)
  = map decodeFn (List.filter (emitted_by tag (toUpperCase address)) logs).
Proof.
  unfold decoders_of.
  induction logs as [| entry logs IH]; simpl; [reflexivity |].
  unfold emitted_by at 1.
  destruct (String.eqb_spec (toUpperCase (log_address entry)) (toUpperCase address))
    as [-> | Hne].
  - rewrite lookup_insert_eq.
    destruct (log_topics entry !! 0%nat) as [t |]; simpl; [| exact IH].
    destruct (String.eqb_spec t tag) as [-> | Hne]; simpl.
    + rewrite lookup_insert_eq. simpl. f_equal. exact IH.
    + rewrite lookup_insert_ne by congruence. rewrite lookup_empty. exact IH.
  - rewrite lookup_insert_ne by congruence. rewrite lookup_empty.
    rewrite andb_false_r. exact IH.
Qed.

Lemma decodeEventLogs_none (logs : list Log) :
  decodeEventLogs logs
    (fun emitter topic =>
       match (∅ : gmap string (gmap string EventDataDecoder)) !! emitter, topic with
       | Some subMap, Some t => subMap !! t
       | _, _ => None
       end) = [].
Proof.
  induction logs as [| entry logs IH]; simpl; [reflexivity |].
  rewrite lookup_empty. exact IH.
Qed.

(** C6, as amended.  [filterEventFromLog] never fails.  For a filter
    whose address is set (and not empty) and whose topic 0 is one exact tag
    it returns, in the order of the logs, the decodings of exactly the
    records whose topic 0 is that tag and whose address equals the filter's
    up to letter case; for any other filter, one without address included,
    it returns the empty list.  The values [nonIndexed] play no part. *)
Theorem filterEventFromLog_selects (logs : list Log) (f : ExtendedEventFilter) :
  (forall values, filterEventFromLog logs (set_nonIndexed f values)
                  = filterEventFromLog logs f) /\
  filterEventFromLog logs f =
    match filter_address f, filter_topics f with
    | Some address, Some (TopicStr tag :: _) =>
        if truthy_string address then
          map (decodeEventData f)
              (List.filter (emitted_by tag (toUpperCase address)) logs)
        else []
    | _, _ => []
    end.
Proof.
  split; [reflexivity |].
  unfold filterEventFromLog, filtersToDecoders. simpl. unfold add_decoder.
  destruct (filter_address f) as [address |]; [| apply decodeEventLogs_none].
  destruct (filter_topics f) as [topics |]; [| apply decodeEventLogs_none].
  destruct (truthy_string address).
  - destruct topics as [| [| tag |alts] topics]; simpl;
      try apply decodeEventLogs_none.
    rewrite lookup_empty. simpl. apply decodeEventLogs_single.
  - destruct topics as [| [| tag |alts] topics]; apply decodeEventLogs_none.
Qed.

(** C6 fails as stated: for a filter without address, two records carry
    the filter's tag and none is returned. *)
Lemma filterEventFromLog_without_address :
  filterEventFromLog ex_logs ex_filter_any = [] /\
  map (decodeEventData ex_filter_any)
      (List.filter (fun entry => match log_topics entry !! 0%nat with
                                 | Some t => String.eqb t "B"
                                 | None => false
                                 end) ex_logs)
    = [ex_decode (ex_log "B" "0"); ex_decode (ex_log "B" "2")].
Proof. split; reflexivity. Qed.

(** ** Value matcher on nested [null] *)

(** C7 does not hold of the code: [isDeepEqual] raises a [TypeError] when
    [null] meets an object, here a decoded [BigNumber], at either side;
    through a [null] nested in an expected value the exception leaves
    [_matchProperties] and [_orderedFilter]. *)
Theorem isDeepEqual_throws_on_nested_null :
  isDeepEqual JNull ex_bignumber = Err TypeErrorNullToObject /\
  isDeepEqual ex_bignumber JNull = Err TypeErrorNullToObject /\
  _matchProperties ex_struct_result [JArr 4 [JNull] []] = Err TypeErrorNullToObject /\
  _orderedFilter ex_logs [ex_struct_filter] false = Err TypeErrorNullToObject.
Proof. repeat split; reflexivity. Qed.

Lemma assoc_null_free (name : string) (props : list (string * JValue)) (x : JValue) :
  forallb (fun p => null_free (snd p)) props = true ->
  assoc name props = Some x -> null_free x = true.
Proof.
  induction props as [| [k v] props IH]; simpl; [discriminate |].
  intros H. apply andb_true_iff in H as [Hv Hprops].
  destruct (String.eqb k name); [intros [= <-]; exact Hv | auto].
Qed.

Lemma inherited_null_free (protos : list string) (name : string) :
  null_free (inherited protos name) = true.
Proof. unfold inherited. destruct (mem_string name protos); reflexivity. Qed.

Lemma nth_null_free (items : list JValue) (i : nat) :
  forallb null_free items = true -> null_free (nth i items JUndefined) = true.
Proof.
  revert i. induction items as [| x items IH]; intros i H; [destruct i; reflexivity |].
  simpl in H. apply andb_true_iff in H as [Hx Hitems].
  destruct i as [| i]; simpl; auto.
Qed.

Lemma get_prop_null_free (v : JValue) (key : Key) :
  null_free v = true -> null_free (get_prop v key) = true.
Proof.
  destruct v as [| | b | n | s | fname | ref items props | ref props], key as [i | name];
    simpl; try reflexivity; try discriminate.
  - intros H. apply andb_true_iff in H as [Hitems _]. apply nth_null_free. exact Hitems.
  - intros H. apply andb_true_iff in H as [_ Hprops].
    destruct (String.eqb name "length"); [reflexivity |].
    destruct (assoc name props) as [x |] eqn:Hx;
      [eapply assoc_null_free; eauto | apply inherited_null_free].
  - intros Hprops.
    destruct (assoc name props) as [x |] eqn:Hx;
      [eapply assoc_null_free; eauto | apply inherited_null_free].
Qed.

(** X11.  Where no [null] occurs, [isDeepEqual] returns a boolean. *)
Lemma isDeepEqual_total (v0 : JValue) :
  forall v1, null_free v0 = true -> null_free v1 = true ->
             exists b, isDeepEqual v0 v1 = Ok b.
Proof.
  induction v0 as [| | | | | | ref items props IHitems _ | ref props IHprops]
    using JValue_nested_ind; intros v1 H0 H1;
    try (destruct v1; simpl; eauto; fail); try discriminate.
  - destruct v1 as [| | | | | | ref1 a1 props1 |]; simpl; eauto.
    destruct (Nat.eqb (length items) (length a1)); [| eauto].
    simpl in H0, H1. apply andb_true_iff in H0 as [H0 _].
    apply andb_true_iff in H1 as [H1 _].
    generalize 0%nat.
    induction IHitems as [| x l Hx _ IHl]; intros i; [eauto |].
    simpl in H0. apply andb_true_iff in H0 as [Hx0 Hl0].
    destruct (Hx (nth i a1 JUndefined) Hx0 (nth_null_free a1 i H1)) as [b ->]. simpl.
    destruct b; [apply IHl; exact Hl0 | eauto].
  - simpl. destruct (typeof v1) eqn:Ht; simpl; eauto.
    assert (Hnames : exists k1, getOwnPropertyNames v1 = Ok k1).
    { destruct v1; simpl; eauto; discriminate. }
    destruct Hnames as [k1 ->]. simpl.
    destruct (negb (Nat.eqb (length props) (length k1))); [eauto |].
    simpl in H0.
    induction IHprops as [| [key x] l Hx _ IHl]; [eauto |].
    simpl in H0. apply andb_true_iff in H0 as [Hx0 Hl0].
    destruct (negb (existsb (Key_eqb (KName key)) k1)); [eauto |].
    simpl in Hx.
    destruct (Hx (get_prop v1 (KName key)) Hx0 (get_prop_null_free v1 _ H1)) as [b ->].
    simpl. destruct b; [apply IHl; exact Hl0 | eauto].
Qed.

(** ** Filter builder *)

(** C8 does not hold of the code: for an event whose parameter is named
    [length] the positional form fails, the array's own [length] being
    read as a named value, while the named form builds the filter. *)
Theorem buildFilterArgs_length_parameter :
  _buildFilterArgs ex_length_fragment (positional_form 1 [JNum 7])
    = Err InconsistentValue /\
  _buildFilterArgs ex_length_fragment (positional_form 1 [JNum 1])
    = Err (InconsistentNamed (-1)) /\
  _buildFilterArgs ex_length_fragment (named_form 2 (inputs ex_length_fragment) [JNum 7])
    = Ok ([JNull], Some [JNum 7]).
Proof. repeat split; reflexivity. Qed.

Lemma get_prop_positional (ref : nat) (values : list JValue) (name : string) :
  builtin_name name = false ->
  get_prop (positional_form ref values) (KName name) = JUndefined.
Proof.
  unfold builtin_name, positional_form, get_prop, inherited. simpl assoc.
  intros H. apply orb_false_elim in H as [-> ->]. reflexivity.
Qed.

Lemma assoc_zip (names : list string) :
  forall (values : list JValue) i name v,
    NoDup names -> names !! i = Some name -> values !! i = Some v ->
    assoc name (zip names values) = Some v.
Proof.
  induction names as [| n names IH]; intros values i name v Hnd Hn Hv; [discriminate |].
  destruct values as [| x values]; [discriminate |].
  apply NoDup_cons in Hnd as [Hnotin Hnd]. simpl.
  destruct i as [| i]; simpl in Hn, Hv.
  - injection Hn as ->. injection Hv as ->. rewrite String.eqb_refl. reflexivity.
  - destruct (String.eqb_spec n name) as [-> | Hne].
    + exfalso. apply Hnotin. eapply list_elem_of_lookup_2. exact Hn.
    + eapply IH; eauto.
Qed.

Lemma nullish_false_inv (v : JValue) :
  nullish v = false -> is_undefined v = false /\ is_null v = false /\ or_null v = v.
Proof. unfold or_null. destruct v; simpl; auto; discriminate. Qed.

Section RoundTrip.
Variables (r1 r2 : nat) (params : list ParamType) (values : list JValue).
Hypothesis Hlen : length values = length params.
Hypothesis Hconcrete : Forall (fun v => nullish v = false) values.
Hypothesis Hnodup : NoDup (map param_name params).
Hypothesis Hplain : Forall (fun param => builtin_name (param_name param) = false) params.

Lemma build_param_forms (i : nat) (param : ParamType) (v : JValue) (st1 st2 : BuildState) :
  params !! i = Some param -> values !! i = Some v -> same_args st1 st2 ->
  exists st1' st2',
    build_param (positional_form r1 values) st1 param i = Ok st1' /\
    build_param (named_form r2 params values) st2 param i = Ok st2' /\
    same_args st1' st2' /\
    b_namedCount st1' = b_namedCount st1 /\
    b_namedCount st2' = (b_namedCount st2 - 1)%Z.
Proof.
  intros Hp Hv (Hi & Hn & Hh).
  assert (Hb : builtin_name (param_name param) = false).
  { rewrite Forall_forall in Hplain. apply Hplain. eapply list_elem_of_lookup_2. exact Hp. }
  assert (Hc : nullish v = false).
  { rewrite Forall_forall in Hconcrete. apply Hconcrete. eapply list_elem_of_lookup_2. exact Hv. }
  apply nullish_false_inv in Hc as (Hu & Hnull & Hor).
  unfold build_param.
  rewrite (get_prop_positional r1 values _ Hb).
  assert (Hnamed : get_prop (named_form r2 params values) (KName (param_name param)) = v).
  { unfold named_form, get_prop.
    rewrite (assoc_zip (map param_name params) values i (param_name param) v); auto.
    rewrite list_lookup_fmap, Hp. reflexivity. }
  rewrite Hnamed.
  assert (Hpos : get_prop (positional_form r1 values) (KIdx i) = v).
  { unfold positional_form, get_prop. apply nth_lookup_Some with (d := JUndefined) in Hv.
    exact Hv. }
  rewrite Hpos. simpl isArray. cbv iota. rewrite Hor, Hu. simpl is_undefined. cbv iota.
  simpl is_null. rewrite Hnull. simpl.
  destruct (param_indexed param); eexists; eexists;
    (split; [reflexivity |]); (split; [reflexivity |]);
    unfold same_args; simpl; rewrite Hi, Hn, Hh; auto.
Qed.

Lemma build_params_forms (ps : list ParamType) :
  forall i st1 st2,
    drop i params = ps -> same_args st1 st2 ->
    exists st1' st2',
      build_params (positional_form r1 values) ps i st1 = Ok st1' /\
      build_params (named_form r2 params values) ps i st2 = Ok st2' /\
      same_args st1' st2' /\
      b_namedCount st1' = b_namedCount st1 /\
      b_namedCount st2' = (b_namedCount st2 - Z.of_nat (length ps))%Z.
Proof.
  induction ps as [| param ps IH]; intros i st1 st2 Hdrop Hsame.
  - exists st1, st2. simpl. repeat split; auto; try apply Hsame. lia.
  - assert (Hp : params !! i = Some param).
    { rewrite <- (Nat.add_0_r i), <- lookup_drop, Hdrop. reflexivity. }
    assert (Hi : (i < length values)%nat).
    { rewrite Hlen. eapply lookup_lt_Some. exact Hp. }
    apply lookup_lt_is_Some in Hi as [v Hv].
    destruct (build_param_forms i param v st1 st2 Hp Hv Hsame)
      as (st1' & st2' & H1 & H2 & Hsame' & Hc1 & Hc2).
    assert (Hdrop' : drop (S i) params = ps).
    { replace (drop (S i) params) with (drop 1 (drop i params))
        by (rewrite drop_drop; f_equal; lia).
      rewrite Hdrop. reflexivity. }
    destruct (IH (S i) st1' st2' Hdrop' Hsame')
      as (st1'' & st2'' & H1' & H2' & Hsame'' & Hc1' & Hc2').
    exists st1'', st2''. simpl. rewrite H1, H2. simpl.
    repeat split; auto; try apply Hsame''; lia.
Qed.
End RoundTrip.

Lemma filter_index_keys (l : list nat) :
  List.filter (fun key => (negb true || key_isNaN key)%bool) (map KIdx l) = [].
Proof. induction l as [| i l IH]; simpl; [reflexivity | exact IH]. Qed.

Lemma count_named_positional (ref : nat) (values : list JValue) :
  count_named (positional_form ref values) = 0%Z.
Proof.
  unfold count_named, positional_form. simpl. rewrite app_nil_r.
  rewrite filter_index_keys. reflexivity.
Qed.

Lemma filter_all_keys (l : list Key) :
  List.filter (fun key => (negb false || key_isNaN key)%bool) l = l.
Proof. induction l as [| k l IH]; simpl; [reflexivity | f_equal; exact IH]. Qed.

Lemma count_named_named (ref : nat) (params : list ParamType) (values : list JValue) :
  length values = length params ->
  count_named (named_form ref params values) = Z.of_nat (length params).
Proof.
  intros Hlen. unfold count_named, named_form. simpl. rewrite filter_all_keys.
  rewrite length_map, length_zip, length_map. f_equal. lia.
Qed.


Example buildFilterArgs_round_trip_transfer :
  _buildFilterArgs ex_transfer_fragment (positional_form 1 [JStr "0xab"; JNum 5])
    = Ok ([JStr "0xab"; JNull], Some [JNull; JNum 5]) /\
  _buildFilterArgs ex_transfer_fragment
      (named_form 2 (inputs ex_transfer_fragment) [JStr "0xab"; JNum 5])
    = Ok ([JStr "0xab"; JNull], Some [JNull; JNum 5]).
Proof. split; reflexivity. Qed.

(** ** Event factory *)

Lemma is_undefined_false (v : JValue) : is_undefined v = false -> v <> JUndefined.
Proof. destruct v; simpl; congruence. Qed.

Lemma truthy_string_false (s : string) : truthy_string s = false -> s = "".
Proof. destruct s; simpl; congruence. Qed.

Lemma verifyByFragment_from_Ok (params : list ParamType) (name : string) (args : JValue) :
  forall index,
    verifyByFragment_from params index name args = Ok tt ->
    forall i param, params !! i = Some param -> param_present args (index + i) param.
Proof.
  induction params as [| param0 params IH]; intros index H i param Hi; [discriminate |].
  simpl in H. apply bind_Ok in H as (u1 & H1 & H). apply bind_Ok in H as (u2 & H2 & H).
  apply expect_Ok in H1. apply negb_true_iff in H1.
  destruct i as [| i].
  - injection Hi as <-. rewrite Nat.add_0_r. split; [apply is_undefined_false; exact H1 |].
    intros Hname. destruct (truthy_string (param_name param0)) eqn:Ht.
    + apply expect_Ok in H2. apply negb_true_iff in H2. apply is_undefined_false. exact H2.
    + apply truthy_string_false in Ht. contradiction.
  - replace (index + S i)%nat with (S index + i)%nat by lia. eapply IH; eauto.
Qed.

Section EventFactoryProps.
Variable customName : string.
Variable emitter : Contract.

Lemma verifyArgs_Ok (arg r : JValue) :
  verifyArgs customName emitter arg JUndefined = Ok r ->
  exists fragment,
    getEvent (interface emitter) customName = Some fragment /\
    forall i param, inputs fragment !! i = Some param -> param_present arg i param.
Proof.
  unfold verifyArgs. simpl. unfold get_fragment.
  destruct (getEvent (interface emitter) customName) as [fragment |]; [| discriminate].
  simpl. intros H. apply bind_Ok in H as ([] & H & _).
  exists fragment. split; [reflexivity |].
  intros i param Hi. apply (verifyByFragment_from_Ok _ _ _ 0%nat H i param Hi).
Qed.

Lemma verify_each_Ok (args : list JValue) :
  verify_each customName emitter args = Ok tt ->
  Forall (fun arg => exists r, verifyArgs customName emitter arg JUndefined = Ok r) args.
Proof.
  induction args as [| arg args IH]; intros H; [constructor |].
  simpl in H. apply bind_Ok in H as (r & Hr & H). constructor; eauto.
Qed.

Lemma findEventArgs_loop_filter (fragment : EventFragment) (id addr : string)
    (logs : list Log) :
  findEventArgs_loop (interface emitter) fragment id addr logs =
    map (fun entry => decodeEventLog (interface emitter) fragment
                        (log_data entry) (log_topics entry))
        (List.filter (emitted_by id addr) logs).
Proof.
  induction logs as [| entry logs IH]; simpl; [reflexivity |].
  destruct (emitted_by id addr entry); simpl; [f_equal |]; exact IH.
Qed.

Lemma findEventArgs_nonempty (logs : list Log) (args : list JValue) :
  findEventArgs customName logs emitter = Ok args -> args <> [].
Proof.
  unfold findEventArgs. intros H. apply bind_Ok in H as (fragment & _ & H).
  apply bind_Ok in H as (u & Hu & H). injection H as <-.
  apply expect_Ok in Hu. intros Hnil. rewrite Hnil in Hu. discriminate.
Qed.

Lemma findEventArgs_none (logs : list Log) :
  (forall fragment,
      getEvent (interface emitter) customName = Some fragment ->
      List.filter (emitted_by (event_id (interface emitter) fragment)
                              (toUpperCase (contract_address emitter))) logs = []) ->
  exists err, findEventArgs customName logs emitter = Err err.
Proof.
  intros Hnone. unfold findEventArgs, get_fragment.
  destruct (getEvent (interface emitter) customName) as [fragment |] eqn:Hf; simpl; [| eauto].
  rewrite findEventArgs_loop_filter, (Hnone fragment eq_refl). simpl. eauto.
Qed.

(** C9, as amended.  Without a transform, [all] returns the decoded events
    only after each of them passed the check that every parameter the
    fragment declares is present, by index and, when named, by name.  With
    a transform it hands the decoded events to the transform as they are:
    its outcome is that of [findEventArgs] followed by the transform, and
    no check is made. *)
Theorem all_verifies_without_transform (R : Type) (logs : list Log) :
  (forall r : list JValue + R,
      all customName emitter logs None = Ok r ->
      exists args fragment,
        r = inl args /\
        findEventArgs customName logs emitter = Ok args /\
        getEvent (interface emitter) customName = Some fragment /\
        Forall (fun arg => forall i param, inputs fragment !! i = Some param ->
                                           param_present arg i param) args) /\
  (forall fn : list JValue -> Res R,
      all customName emitter logs (Some fn) =
        (args <- findEventArgs customName logs emitter ;;;
         r <- fn args ;;;
         Ok (inr r))).
Proof.
  split; [| reflexivity].
  unfold all. intros r H. apply bind_Ok in H as (args & Hargs & H).
  apply bind_Ok in H as ([] & Hv & H). injection H as <-.
  pose proof (findEventArgs_nonempty logs args Hargs) as Hne.
  apply verify_each_Ok in Hv.
  destruct args as [| arg0 args]; [contradiction |].
  pose proof (Forall_inv Hv) as (r0 & H0).
  apply verifyArgs_Ok in H0 as (fragment & Hf & _).
  exists (arg0 :: args), fragment. repeat split; auto.
  eapply Forall_impl; [exact Hv |]. intros arg (r1 & H1).
  apply verifyArgs_Ok in H1 as (fragment' & Hf' & Hp).
  assert (fragment' = fragment) as -> by congruence. exact Hp.
Qed.

(** C10.  When no record of the logs carries the emitter's address and the
    event's tag, [all] fails, with or without a transform, and [expectOne]
    fails, whatever is expected.  In particular the list of events [all]
    returns is never empty, and a transform is only given a list that is
    not empty. *)
Theorem no_matching_record_fails (logs : list Log) :
  (forall fragment,
      getEvent (interface emitter) customName = Some fragment ->
      List.filter (emitted_by (event_id (interface emitter) fragment)
                              (toUpperCase (contract_address emitter))) logs = []) ->
  (forall (R : Type) (fn : option (list JValue -> Res R)),
      exists err, all customName emitter logs fn = Err err) /\
  (forall expected, exists err, expectOne customName emitter logs expected = Err err) /\
  (forall (R : Type) (logs' : list Log) (args : list JValue),
      @all customName emitter R logs' None = Ok (inl args) -> args <> []) /\
  (forall (R : Type) (logs' : list Log) (fn : list JValue -> Res R) (r : R),
      all customName emitter logs' (Some fn) = Ok (inr r) ->
      exists args, args <> [] /\ fn args = Ok r).
Proof.
  intros Hnone. apply findEventArgs_none in Hnone as (err & Herr).
  repeat split.
  - intros R fn. unfold all. rewrite Herr. simpl. eauto.
  - intros expected. unfold expectOne. rewrite Herr. simpl. eauto.
  - intros R logs' args H. unfold all in H. apply bind_Ok in H as (args' & Hargs & H).
    apply bind_Ok in H as (u & _ & H). injection H as <-.
    eapply findEventArgs_nonempty; eauto.
  - intros R logs' fn r H. unfold all in H. apply bind_Ok in H as (args & Hargs & H).
    apply bind_Ok in H as (r' & Hr & H). injection H as <-.
    exists args. split; [eapply findEventArgs_nonempty; eauto | exact Hr].
Qed.
End EventFactoryProps.

Lemma all_verifies_without_transform_instance :
  exists args fragment,
    (inl args : list JValue + unit) = inl args /\
    findEventArgs "Store" ex_logs ex_emitter_named = Ok args /\
    getEvent (interface ex_emitter_named) "Store" = Some fragment /\
    Forall (fun arg => forall i param, inputs fragment !! i = Some param ->
                                       param_present arg i param) args.
Proof.
  destruct (proj1 (all_verifies_without_transform "Store" ex_emitter_named unit ex_logs)
              (inl [JArr 0 [JStr "0"] [("value", JStr "0")];
                    JArr 0 [JStr "2"] [("value", JStr "2")]]) eq_refl)
    as (args & fragment & Hr & Hrest).
  exists args, fragment. split; [reflexivity | exact Hrest].
Defined.

(** C9 fails as stated: the decoder of [ex_emitter] leaves out the named
    property [value]; [all] rejects its events when it returns them as they
    are, and returns them through a transform without complaint. *)
Lemma all_with_transform_skips_verification :
  all "Store" ex_emitter ex_logs (Some (fun args => Ok args))
    = Ok (inr [JArr 0 [JStr "0"] []; JArr 0 [JStr "2"] []]) /\
  verifyArgs "Store" ex_emitter (JArr 0 [JStr "0"] []) JUndefined
    = Err (PropertyNameUndefined "Store" "value") /\
  @all "Store" ex_emitter unit ex_logs None
    = Err (PropertyNameUndefined "Store" "value").
Proof. repeat split; reflexivity. Qed.

Lemma no_matching_record_fails_instance :
  (forall fragment,
      getEvent (interface ex_emitter_named) "Store" = Some fragment ->
      List.filter (emitted_by (event_id (interface ex_emitter_named) fragment)
                              (toUpperCase (contract_address ex_emitter_named)))
                  [ex_log "A" "1"] = []) /\
  (exists err, @all "Store" ex_emitter_named unit [ex_log "A" "1"] None = Err err) /\
  (exists err, expectOne "Store" ex_emitter_named [ex_log "A" "1"] JUndefined = Err err).
Proof.
  assert (Hnone : forall fragment,
             getEvent (interface ex_emitter_named) "Store" = Some fragment ->
             List.filter (emitted_by (event_id (interface ex_emitter_named) fragment)
                                     (toUpperCase (contract_address ex_emitter_named)))
                         [ex_log "A" "1"] = []).
  { intros fragment _. reflexivity. }
  pose proof (no_matching_record_fails "Store" ex_emitter_named [ex_log "A" "1"] Hnone)
    as (Hall & Hone & _).
  split; [exact Hnone |]. split; [apply Hall | apply Hone].
Defined.

(** * Further properties *)

(** ** [_matchTopics] *)

Lemma matchTopics_loop_iff (expectedTopics : list Topic) :
  forall actualTopics : list string,
    matchTopics_loop expectedTopics actualTopics = true <->
    (length expectedTopics <= length actualTopics)%nat /\
    forall i t, expectedTopics !! i = Some t ->
                t = TopicNull \/ exists s, t = TopicStr s /\ actualTopics !! i = Some s.
Proof.
  induction expectedTopics as [| t ts IH]; intros actualTopics; simpl.
  - split; [| reflexivity]. intros _. split; [lia |]. intros i t Hi. discriminate.
  - destruct actualTopics as [| a actuals]; simpl.
    + split; [discriminate | intros [Hlen _]; lia].
    + destruct (topic_differs t a) eqn:Hd.
      * split; [discriminate |]. intros [_ H].
        destruct (H 0%nat t eq_refl) as [-> | (s & -> & [= ->])]; simpl in Hd;
          [discriminate |]. rewrite String.eqb_refl in Hd. discriminate.
      * rewrite IH. split.
        -- intros [Hlen H]. split; [lia |]. intros [| i] t' Hi; simpl in Hi.
           ++ injection Hi as <-. destruct t as [| s | alts]; simpl in Hd;
                [auto | | discriminate].
              right. exists s. split; [reflexivity |].
              apply negb_false_iff, String.eqb_eq in Hd. subst. reflexivity.
           ++ apply H. exact Hi.
        -- intros [Hlen H]. split; [lia |]. intros i t' Hi. apply (H (S i) t' Hi).
Qed.

(** X1.  [_matchTopics] accepts a record for a filter exactly when the
    filter's address, if it has one, is the record's up to letter case,
    and the filter has no more topics than the record, each of them
    either [null] or the very string the record has at its position; a
    list of alternatives is never matched. *)
Theorem matchTopics_iff (actual : Log) (expected : ExtendedEventFilter) :
  _matchTopics actual expected = true <->
  (forall a, filter_address expected = Some a ->
             toUpperCase (log_address actual) = toUpperCase a) /\
  (forall topics, filter_topics expected = Some topics ->
     (length topics <= length (log_topics actual))%nat /\
     forall i t, topics !! i = Some t ->
                 t = TopicNull \/
                 exists s, t = TopicStr s /\ log_topics actual !! i = Some s).
Proof.
  unfold _matchTopics.
  destruct (filter_address expected) as [a |].
  - destruct (String.eqb_spec (toUpperCase (log_address actual)) (toUpperCase a))
      as [Heq | Hne]; simpl.
    + rewrite matchTopics_loop_iff. split.
      * intros H. split; [intros a' [= <-]; exact Heq |].
        intros topics Ht. rewrite Ht in H. exact H.
      * intros [_ H]. destruct (filter_topics expected) as [topics |]; simpl.
        -- apply H. reflexivity.
        -- split; [lia |]. intros i t Hi. discriminate.
    + split; [discriminate |]. intros [H _]. exfalso. apply Hne, H. reflexivity.
  - simpl. rewrite matchTopics_loop_iff. split.
    + intros H. split; [intros a' [=] |].
      intros topics Ht. rewrite Ht in H. exact H.
    + intros [_ H]. destruct (filter_topics expected) as [topics |]; simpl.
      * apply H. reflexivity.
      * split; [lia |]. intros i t Hi. discriminate.
Qed.

(** ** Letter case of addresses *)

Lemma upper_ascii_idempotent (c : ascii) : upper_ascii (upper_ascii c) = upper_ascii c.
Proof. destruct c as [[] [] [] [] [] [] [] []]; reflexivity. Qed.

Lemma toUpperCase_idempotent (s : string) : toUpperCase (toUpperCase s) = toUpperCase s.
Proof.
  induction s as [| c s IH]; simpl; [reflexivity |].
  rewrite upper_ascii_idempotent, IH. reflexivity.
Qed.

(** X2.  [_matchTopics] compares addresses without regard to letter case:
    putting the address of the record, or that of the filter, in upper
    case does not change its answer. *)
Theorem matchTopics_ignores_case (actual : Log) (f : ExtendedEventFilter) (a : string) :
  _matchTopics (set_log_address actual (toUpperCase (log_address actual)))
               (set_filter_address f a)
    = _matchTopics actual (set_filter_address f a) /\
  _matchTopics actual (set_filter_address f (toUpperCase a))
    = _matchTopics actual (set_filter_address f a).
Proof.
  unfold _matchTopics. simpl. rewrite !toUpperCase_idempotent. split; reflexivity.
Qed.

(** ** The failures of the inner loop *)

Lemma scan_Err (e : ExtendedEventFilter) (m : list bool) (prev : Z) (rest : list Log) :
  forall j err,
    scan e m prev j rest = Err err ->
    err = TypeErrorNullToObject \/
    exists k actual,
      err = WrongOrderOfEvents k prev /\ (j <= k)%nat /\ (Z.of_nat k <= prev)%Z /\
      rest !! (k - j)%nat = Some actual /\ is_matched m k = false /\
      candidate actual e = Ok true.
Proof.
  induction rest as [| actual rest IH]; intros j err H; [discriminate |].
  rewrite scan_cons in H.
  assert (Hnext : scan e m prev (S j) rest = Err err ->
            err = TypeErrorNullToObject \/
            exists k actual0,
              err = WrongOrderOfEvents k prev /\ (j <= k)%nat /\ (Z.of_nat k <= prev)%Z /\
              (actual :: rest) !! (k - j)%nat = Some actual0 /\ is_matched m k = false /\
              candidate actual0 e = Ok true).
  { intros H'. apply IH in H' as [-> | (k & a & -> & Hle & Hk & Hl & Hm & Hc)]; [auto |].
    right. exists k, a. repeat split; auto; [lia |].
    replace (k - j)%nat with (S (k - S j)) by lia. exact Hl. }
  destruct (is_matched m j) eqn:Hm; [auto |].
  apply bind_Err in H as [H | (c & Hc & H)]; [left; eauto using candidate_Err |].
  destruct c; [| auto].
  apply bind_Err in H as [H | (u & _ & H)]; [| discriminate].
  apply expect_Err in H as [Hlt ->]. right. exists j, actual.
  apply Z.ltb_ge in Hlt. rewrite Nat.sub_diag. repeat split; auto.
Qed.

Lemma scan_NotFound_skips (e : ExtendedEventFilter) (m : list bool) (prev : Z)
    (rest : list Log) :
  forall j,
    scan e m prev j rest = Ok NotFound ->
    forall i a, rest !! i = Some a ->
                is_matched m (j + i) = true \/ candidate a e = Ok false.
Proof.
  induction rest as [| actual rest IH]; intros j H i a Hi; [discriminate |].
  rewrite scan_cons in H.
  assert (Hnext : scan e m prev (S j) rest = Ok NotFound ->
                  forall i a, rest !! i = Some a ->
                              is_matched m (j + S i) = true \/ candidate a e = Ok false).
  { intros H' i' a' Hi'. replace (j + S i')%nat with (S j + i')%nat by lia. eauto. }
  destruct (is_matched m j) eqn:Hm.
  - destruct i as [| i]; [left; rewrite Nat.add_0_r; exact Hm | eauto].
  - apply bind_Ok in H as (c & Hc & H). destruct c.
    + apply bind_Ok in H as (u & _ & H). discriminate.
    + destruct i as [| i]; [injection Hi as <-; auto | eauto].
Qed.

(** The loop started later, at most at the record it stops at, ends the
    same way. *)
Lemma scan_suffix_Found (e : ExtendedEventFilter) (m : list bool) (prev : Z)
    (rest : list Log) :
  forall j n k d a,
    scan e m prev j rest = Ok (Found k d a) -> (j + n <= k)%nat ->
    scan e m prev (j + n) (drop n rest) = Ok (Found k d a).
Proof.
  induction rest as [| actual rest IH]; intros j n k d a H Hn; [discriminate |].
  destruct n as [| n]; [rewrite Nat.add_0_r, drop_0; exact H |].
  rewrite scan_cons in H. simpl drop.
  replace (j + S n)%nat with (S j + n)%nat in * by lia.
  destruct (is_matched m j); [eauto |].
  apply bind_Ok in H as (c & Hc & H). destruct c; [| eauto].
  apply bind_Ok in H as (u & _ & H). injection H as <- _ _. lia.
Qed.

Lemma scan_suffix_NotFound (e : ExtendedEventFilter) (m : list bool) (prev : Z)
    (rest : list Log) :
  forall j n,
    scan e m prev j rest = Ok NotFound ->
    scan e m prev (j + n) (drop n rest) = Ok NotFound.
Proof.
  induction rest as [| actual rest IH]; intros j n H.
  - rewrite drop_nil. reflexivity.
  - destruct n as [| n]; [rewrite Nat.add_0_r, drop_0; exact H |].
    rewrite scan_cons in H. simpl drop.
    replace (j + S n)%nat with (S j + n)%nat by lia.
    destruct (is_matched m j); [eauto |].
    apply bind_Ok in H as (c & Hc & H). destruct c; [| eauto].
    apply bind_Ok in H as (u & _ & H). discriminate.
Qed.

Lemma step_false_true (actuals : list Log) (done : list ExtendedEventFilter)
    (st st' : MatchState) (e : ExtendedEventFilter) :
  Inv actuals done st ->
  step false actuals st e = Ok st' -> step true actuals st e = Ok st'.
Proof.
  intros I. unfold step. intros H. apply bind_Ok in H as (s & Hs & H).
  rewrite drop_0 in Hs. pose proof (inv_prev _ _ _ I) as Hprev.
  destruct s as [k d a |].
  - pose proof (scan_Found _ _ _ _ _ _ _ _ Hs) as (_ & _ & _ & _ & _ & _ & _ & Hk).
    assert (Hle : (0 + Z.to_nat (prevActualIndex st + 1) <= k)%nat) by lia.
    pose proof (scan_suffix_Found _ _ _ _ 0%nat _ k d a Hs Hle) as Hs'.
    simpl in Hs'. rewrite Hs'. exact H.
  - pose proof (scan_suffix_NotFound _ _ _ _ 0%nat
                  (Z.to_nat (prevActualIndex st + 1)) Hs) as Hs'.
    simpl in Hs'. rewrite Hs'. exact H.
Qed.

Lemma outer_loop_false_true (actuals : list Log) (es : list ExtendedEventFilter) :
  forall done st st',
    Inv actuals done st ->
    outer_loop false actuals es st = Ok st' -> outer_loop true actuals es st = Ok st'.
Proof.
  induction es as [| e es IH]; intros done st st' I H; simpl in *; [exact H |].
  apply bind_Ok in H as (st1 & H1 & H).
  rewrite (step_false_true _ _ _ _ _ I H1). simpl.
  eapply (IH (done ++ [e])); [| exact H]. eapply Inv_step; eauto.
Qed.

(** X3.  Whenever the matcher returns without [forwardOnly], it returns the
    same with it. *)
Theorem orderedFilter_forwardOnly_agrees (actuals : list Log)
    (expecteds : list ExtendedEventFilter) (r : list string * list JValue) :
  _orderedFilter actuals expecteds false = Ok r ->
  _orderedFilter actuals expecteds true = Ok r.
Proof.
  unfold _orderedFilter, orderedFilter_state. intros H.
  apply bind_Ok in H as (st & H & Hr). apply bind_Ok in H as (st' & Hloop & H).
  rewrite (outer_loop_false_true _ _ _ _ _ (Inv_init actuals) Hloop). simpl.
  simpl in H. rewrite H. exact Hr.
Qed.

(** ** The failures of [_orderedFilter] *)

Lemma prev_consumed_step (fo : bool) (actuals : list Log)
    (done : list ExtendedEventFilter) (st st' : MatchState) (e : ExtendedEventFilter) :
  Inv actuals done st -> prev_consumed st ->
  step fo actuals st e = Ok st' -> prev_consumed st'.
Proof.
  intros I Hp H. apply step_Ok in H as [-> | (k & actual & Hk & _ & _ & _ & ->)]; [exact Hp |].
  right. exists k. split; [reflexivity |]. simpl.
  apply is_matched_insert; [| auto].
  rewrite (inv_matched_len _ _ _ I). eapply lookup_lt_Some. exact Hk.
Qed.

Lemma step_Err (fo : bool) (actuals : list Log) (done : list ExtendedEventFilter)
    (st : MatchState) (e : ExtendedEventFilter) (err : Failure) :
  Inv actuals done st -> prev_consumed st ->
  step fo actuals st e = Err err ->
  err = TypeErrorNullToObject \/
  exists k actual,
    err = WrongOrderOfEvents k (prevActualIndex st) /\ fo = false /\
    (Z.of_nat k < prevActualIndex st)%Z /\
    actuals !! k = Some actual /\ candidate actual e = Ok true.
Proof.
  intros I Hp. unfold step. intros H. apply bind_Err in H as [H | (s & _ & H)].
  - apply scan_Err in H as [-> | (k & actual & -> & Hle & Hk & Hl & Hm & Hc)]; [auto |].
    right. exists k, actual. pose proof (inv_prev _ _ _ I) as Hprev.
    rewrite lookup_drop in Hl. replace (_ + (k - _))%nat with k in Hl by lia.
    destruct fo; [lia |]. repeat split; auto.
    destruct Hp as [Hp | (p & Hp & Hpm)]; [lia |].
    destruct (decide (k = p)) as [-> | Hne]; [congruence | lia].
  - destruct s; discriminate.
Qed.

Lemma outer_loop_Err (fo : bool) (actuals : list Log) (es : list ExtendedEventFilter) :
  forall done st err,
    Inv actuals done st -> prev_consumed st ->
    outer_loop fo actuals es st = Err err ->
    err = TypeErrorNullToObject \/
    exists k prev actual f,
      err = WrongOrderOfEvents k prev /\ fo = false /\ (Z.of_nat k < prev)%Z /\
      actuals !! k = Some actual /\ f ∈ es /\ candidate actual f = Ok true.
Proof.
  induction es as [| e es IH]; intros done st err I Hp H; simpl in H; [discriminate |].
  apply bind_Err in H as [H | (st1 & H1 & H)].
  - eapply step_Err in H as [-> | (k & actual & -> & Hfo & Hk & Ha & Hc)]; eauto.
    right. exists k, (prevActualIndex st), actual, e.
    repeat split; auto. apply list_elem_of_here.
  - eapply (IH (done ++ [e])) in H
      as [-> | (k & prev & actual & f & -> & Hfo & Hk & Ha & Hf & Hc)]; auto.
    + right. exists k, prev, actual, f. repeat split; auto.
      apply list_elem_of_further. exact Hf.
    + eapply Inv_step; eauto.
    + eapply prev_consumed_step; eauto.
Qed.



Lemma orderedFilter_forwardOnly_agrees_instance :
  _orderedFilter ex_logs [ex_filter "B"; ex_filter "B"] false
    = Ok (["0xAB"; "0xAB"], [ex_decode (ex_log "B" "0"); ex_decode (ex_log "B" "2")]) /\
  _orderedFilter ex_logs [ex_filter "B"; ex_filter "B"] true
    = Ok (["0xAB"; "0xAB"], [ex_decode (ex_log "B" "0"); ex_decode (ex_log "B" "2")]).
Proof.
  split; [reflexivity |].
  apply (orderedFilter_forwardOnly_agrees ex_logs [ex_filter "B"; ex_filter "B"]).
  reflexivity.
Defined.

(** ** The search with [forwardOnly] *)

(** X5.  With [forwardOnly] the record chosen is the first one after the
    previous match that is not consumed and that the filter accepts; the
    records up to the previous match are not looked at. *)
Theorem forwardOnly_takes_first (actuals : list Log) (st : MatchState)
    (e : ExtendedEventFilter) (k : nat) (actual : Log) :
  (-1 <= prevActualIndex st)%Z ->
  (prevActualIndex st < Z.of_nat k)%Z ->
  actuals !! k = Some actual ->
  is_matched (matched st) k = false ->
  candidate actual e = Ok true ->
  (forall i a, (prevActualIndex st < Z.of_nat i)%Z -> (i < k)%nat ->
               actuals !! i = Some a ->
               is_matched (matched st) i = true \/ candidate a e = Ok false) ->
  step true actuals st e = Ok (push_match st e k actual).
Proof.
  intros Hprev Hk Ha Hm Hc Hskip. unfold step.
  set (start := Z.to_nat (prevActualIndex st + 1)).
  assert (Hstart : (start <= k)%nat) by lia.
  rewrite (scan_first e (matched st) (prevActualIndex st) (drop start actuals)
             start (k - start) actual).
  - replace (start + (k - start))%nat with k by lia.
    apply Z.ltb_lt in Hk. rewrite Hk. reflexivity.
  - rewrite lookup_drop. replace (start + (k - start))%nat with k by lia. exact Ha.
  - replace (start + (k - start))%nat with k by lia. exact Hm.
  - exact Hc.
  - intros i a Hi Hl. rewrite lookup_drop in Hl.
    apply (Hskip (start + i)%nat a); [lia | lia | exact Hl].
Qed.

Lemma forwardOnly_takes_first_instance :
  step true ex_logs ex_state (ex_filter "B")
    = Ok (push_match ex_state (ex_filter "B") 2 (ex_log "B" "2")).
Proof.
  apply (forwardOnly_takes_first ex_logs ex_state (ex_filter "B") 2 (ex_log "B" "2")).
  - simpl. lia.
  - simpl. lia.
  - reflexivity.
  - reflexivity.
  - reflexivity.
  - simpl. intros i a H1 H2. lia.
Defined.

Lemma assignable_weaken (actuals : list Log) (fs : list ExtendedEventFilter)
    (qs : list nat) (lo lo' : Z) :
  (lo' <= lo)%Z ->
  assignable actuals lo fs qs = true -> assignable actuals lo' fs qs = true.
Proof.
  destruct fs as [| f fs], qs as [| q qs]; simpl; auto.
  intros Hle H. apply andb_true_iff in H as [H Hrest]. apply andb_true_iff in H as [Hq Hc].
  rewrite Hc, Hrest. apply Z.ltb_lt in Hq.
  replace (lo' <? Z.of_nat q)%Z with true by (symmetry; apply Z.ltb_lt; lia).
  reflexivity.
Qed.

Lemma accepts_at_true (actuals : list Log) (f : ExtendedEventFilter) (q : nat) :
  accepts_at actuals f q = true ->
  exists actual, actuals !! q = Some actual /\ candidate actual f = Ok true.
Proof.
  unfold accepts_at. destruct (actuals !! q) as [actual |]; [| discriminate].
  destruct (candidate actual f) as [[|] |] eqn:Hc; try discriminate.
  intros _. exists actual. split; [reflexivity | exact Hc].
Qed.

Lemma no_exception_Ok (actuals : list Log) (fs : list ExtendedEventFilter) :
  no_exception actuals fs = true ->
  forall a f, a ∈ actuals -> f ∈ fs -> exists b, candidate a f = Ok b.
Proof.
  unfold no_exception. intros H a f Ha Hf.
  rewrite forallb_forall in H. apply list_elem_of_In, H in Ha.
  rewrite forallb_forall in Ha. apply list_elem_of_In, Ha in Hf.
  destruct (candidate a f); [eauto | discriminate].
Qed.

(** Among the records from [j] on, up to one that is free and accepted,
    the loop finds the first such one, when the value matcher raises no
    exception on the way. *)
Lemma scan_finds (e : ExtendedEventFilter) (m : list bool) (prev : Z) (rest : list Log) :
  forall j q actual,
    (prev < Z.of_nat j)%Z ->
    rest !! q = Some actual -> candidate actual e = Ok true ->
    is_matched m (j + q) = false ->
    (forall i a, (i < q)%nat -> rest !! i = Some a -> exists b, candidate a e = Ok b) ->
    exists k a',
      (k <= q)%nat /\ rest !! k = Some a' /\ candidate a' e = Ok true /\
      scan e m prev j rest
        = Ok (Found (j + k) (decodeEventData e a') (log_address a')).
Proof.
  induction rest as [| actual0 rest IH]; intros j q actual Hj Hq Hc Hm Hok; [discriminate |].
  rewrite scan_cons.
  assert (Hhere : forall a0, candidate a0 e = Ok true -> actual0 = a0 ->
            is_matched m j = false ->
            exists k a',
              (k <= q)%nat /\ (actual0 :: rest) !! k = Some a' /\ candidate a' e = Ok true /\
              (c <- candidate actual0 e ;;;
               if c then
                 _ <- expect (prev <? Z.of_nat j)%Z (WrongOrderOfEvents j prev) ;;;
                 Ok (Found j (decodeEventData e actual0) (log_address actual0))
               else scan e m prev (S j) rest)
              = Ok (Found (j + k) (decodeEventData e a') (log_address a'))).
  { intros a0 Ha0 <- _. exists 0%nat, actual0. rewrite Ha0. simpl.
    apply Z.ltb_lt in Hj. rewrite Hj. simpl. rewrite Nat.add_0_r.
    repeat split; auto. lia. }
  destruct q as [| q].
  - injection Hq as ->. rewrite Nat.add_0_r in Hm. rewrite Hm. eauto.
  - assert (Hnext : exists k a',
              (k <= S q)%nat /\ (actual0 :: rest) !! k = Some a' /\
              candidate a' e = Ok true /\
              scan e m prev (S j) rest
                = Ok (Found (j + k) (decodeEventData e a') (log_address a'))).
    { destruct (IH (S j) q actual) as (k & a' & Hk & Hl & Hc' & Hs); auto.
      - lia.
      - replace (S j + q)%nat with (j + S q)%nat by lia. exact Hm.
      - intros i a Hi Hl. apply (Hok (S i) a); [lia | exact Hl].
      - exists (S k), a'. replace (j + S k)%nat with (S j + k)%nat by lia.
        repeat split; auto. lia. }
    destruct (is_matched m j) eqn:Hmj; [exact Hnext |].
    destruct (Hok 0%nat actual0) as [b Hb]; [lia | reflexivity |].
    destruct b; [eauto |]. rewrite Hb. simpl. exact Hnext.
Qed.

Lemma outer_loop_forward_complete (actuals : list Log) (es : list ExtendedEventFilter) :
  forall done st qs,
    Inv actuals done st ->
    (forall a f, a ∈ actuals -> f ∈ es -> exists b, candidate a f = Ok b) ->
    assignable actuals (prevActualIndex st) es qs = true ->
    exists st',
      outer_loop true actuals es st = Ok st' /\
      length (result st') = (length (result st) + length es)%nat.
Proof.
  induction es as [| e es IH]; intros done st qs I Hok Hqs.
  - exists st. simpl. split; [reflexivity | lia].
  - destruct qs as [| q qs]; [discriminate |].
    simpl in Hqs. apply andb_true_iff in Hqs as [Hqs Hrest].
    apply andb_true_iff in Hqs as [Hq Hacc]. apply Z.ltb_lt in Hq.
    apply accepts_at_true in Hacc as (actual & Ha & Hc).
    pose proof (inv_prev _ _ _ I) as Hprev.
    set (start := Z.to_nat (prevActualIndex st + 1)).
    assert (Hfree : forall i, (start <= i)%nat -> is_matched (matched st) i = false).
    { intros i Hi. destruct (is_matched (matched st) i) eqn:Hm; [| reflexivity].
      apply (inv_matched _ _ _ I) in Hm. apply (inv_bound _ _ _ I) in Hm. lia. }
    destruct (scan_finds e (matched st) (prevActualIndex st) (drop start actuals)
                start (q - start) actual) as (k & a' & Hk & Hl & Hc' & Hs).
    + lia.
    + rewrite lookup_drop. replace (start + (q - start))%nat with q by lia. exact Ha.
    + exact Hc.
    + apply Hfree. lia.
    + intros i a Hi Hl. rewrite lookup_drop in Hl. apply Hok.
      * eapply list_elem_of_lookup_2. exact Hl.
      * apply list_elem_of_here.
    + assert (Hstep : step true actuals st e
                        = Ok (push_match st e (start + k) a')).
      { unfold step. fold start. rewrite Hs. reflexivity. }
      destruct (IH (done ++ [e]) (push_match st e (start + k) a') qs) as (st' & Hloop & Hlen).
      * eapply Inv_step; eauto.
      * intros a f Hin Hf. apply Hok; [exact Hin | apply list_elem_of_further; exact Hf].
      * simpl. eapply assignable_weaken; [| exact Hrest]. lia.
      * exists st'. simpl. rewrite Hstep. simpl. split; [exact Hloop |].
        rewrite Hlen. simpl. rewrite length_app. simpl. lia.
Qed.

(** X6.  With [forwardOnly] the matcher is complete: when the value matcher
    raises no exception on these logs and filters, and the filters can be
    assigned, in order, records they accept at strictly increasing
    positions, the call returns. *)
Theorem orderedFilter_forwardOnly_complete (actuals : list Log)
    (expecteds : list ExtendedEventFilter) (qs : list nat) :
  no_exception actuals expecteds = true ->
  assignable actuals (-1) expecteds qs = true ->
  exists r, _orderedFilter actuals expecteds true = Ok r.
Proof.
  intros Hok Hqs.
  destruct (outer_loop_forward_complete actuals expecteds [] (init_state actuals) qs
              (Inv_init actuals) (no_exception_Ok _ _ Hok) Hqs) as (st & Hloop & Hlen).
  unfold _orderedFilter, orderedFilter_state. rewrite Hloop. simpl.
  simpl in Hlen. rewrite Hlen, Nat.eqb_refl. simpl. eauto.
Qed.

Lemma orderedFilter_forwardOnly_complete_instance :
  exists r, _orderedFilter ex_logs [ex_filter "A"; ex_filter "B"] true = Ok r.
Proof.
  apply (orderedFilter_forwardOnly_complete ex_logs [ex_filter "A"; ex_filter "B"] [1; 2]%nat).
  - reflexivity.
  - reflexivity.
Defined.

(** ** The emitters returned, and empty inputs *)

Lemma candidate_true_matchTopics (actual : Log) (f : ExtendedEventFilter) :
  candidate actual f = Ok true -> _matchTopics actual f = true.
Proof. unfold candidate. destruct (_matchTopics actual f); [reflexivity | discriminate]. Qed.

Lemma matchTopics_address (actual : Log) (f : ExtendedEventFilter) (a : string) :
  _matchTopics actual f = true -> filter_address f = Some a ->
  toUpperCase (log_address actual) = toUpperCase a.
Proof.
  unfold _matchTopics. intros H Ha. rewrite Ha in H.
  destruct (String.eqb_spec (toUpperCase (log_address actual)) (toUpperCase a));
    [assumption | discriminate].
Qed.

(** X7.  The i-th emitter returned is the address of a record of the logs, and
    when the i-th filter names an address, the two are equal up to letter
    case. *)
Theorem orderedFilter_emitters (actuals : list Log)
    (expecteds : list ExtendedEventFilter) (forwardOnly : bool)
    (addrs : list string) (res : list JValue) :
  _orderedFilter actuals expecteds forwardOnly = Ok (addrs, res) ->
  forall i f, expecteds !! i = Some f ->
    exists actual,
      actual ∈ actuals /\ addrs !! i = Some (log_address actual) /\
      forall a, filter_address f = Some a ->
                toUpperCase (log_address actual) = toUpperCase a.
Proof.
  intros H i f Hf. apply orderedFilter_Ok in H as (st & Hst & [= -> ->]).
  apply orderedFilter_state_Inv in Hst as [I Hlen].
  destruct (inv_assigned _ _ _ I Hlen i f Hf) as (p & actual & _ & Ha & Hc & _ & Haddr).
  exists actual. split; [eapply list_elem_of_lookup_2; exact Ha |].
  split; [exact Haddr |]. intros a Hfa.
  eapply matchTopics_address; [apply candidate_true_matchTopics |]; eauto.
Qed.

Lemma orderedFilter_emitters_instance :
  exists actual,
    actual ∈ ex_logs /\
    ["0xAB"; "0xAB"] !! 1%nat = Some (log_address actual) /\
    forall a, filter_address (ex_filter "B") = Some a ->
              toUpperCase (log_address actual) = toUpperCase a.
Proof.
  apply (orderedFilter_emitters ex_logs [ex_filter "A"; ex_filter "B"] true
           ["0xAB"; "0xAB"] [ex_decode (ex_log "A" "1"); ex_decode (ex_log "B" "2")]
           eq_refl 1%nat (ex_filter "B") eq_refl).
Defined.

Lemma outer_loop_no_logs (fo : bool) (es : list ExtendedEventFilter) (st : MatchState) :
  outer_loop fo [] es st = Ok st.
Proof.
  induction es as [| e es IH]; simpl; [reflexivity |].
  unfold step. rewrite drop_nil. simpl. exact IH.
Qed.

(** X8.  Without filters the matcher returns two empty lists, whatever the
    logs; without logs it fails for any filter at all, having found none
    of them. *)
Theorem orderedFilter_empty (forwardOnly : bool) :
  (forall actuals, _orderedFilter actuals [] forwardOnly = Ok ([], [])) /\
  (forall e es,
      _orderedFilter [] (e :: es) forwardOnly
        = Err (NotAllExpectedEventsFound 0 (S (length es)))).
Proof.
  split; [reflexivity |]. intros e es.
  unfold _orderedFilter, orderedFilter_state. rewrite outer_loop_no_logs. reflexivity.
Qed.

(** ** [_matchProperties] *)

Lemma matchProperties_from_iff (actual : JValue) (expected : list JValue) :
  forall index,
    matchProperties_from actual expected index = Ok true <->
    forall i value, expected !! i = Some value -> nullish value = false ->
                    isDeepEqual value (get_prop actual (KIdx (index + i))) = Ok true.
Proof.
  induction expected as [| value0 expected IH]; intros index; simpl.
  - split; [| reflexivity]. intros _ i value Hi. discriminate.
  - assert (Hshift : (forall i value, expected !! i = Some value -> nullish value = false ->
                        isDeepEqual value (get_prop actual (KIdx (S index + i))) = Ok true) <->
                     (forall i value, expected !! i = Some value -> nullish value = false ->
                        isDeepEqual value (get_prop actual (KIdx (index + S i))) = Ok true)).
    { split; intros H i value Hi Hn.
      - replace (index + S i)%nat with (S index + i)%nat by lia. eauto.
      - replace (S index + i)%nat with (index + S i)%nat by lia. eauto. }
    destruct (nullish value0) eqn:Hnull.
    + split.
      * intros H. pose proof (proj1 Hshift (proj1 (IH _) H)) as H'.
        intros [| i] value Hi Hn; simpl in Hi; [| eauto].
        injection Hi as <-. congruence.
      * intros H. apply (proj2 (IH _)), (proj2 Hshift).
        intros i value Hi Hn. apply (H (S i) value Hi Hn).
    + split.
      * intros H. apply bind_Ok in H as (eq & Heq & H). destruct eq; [| discriminate].
        pose proof (proj1 Hshift (proj1 (IH _) H)) as H'.
        intros [| i] value Hi Hn; simpl in Hi.
        -- injection Hi as <-. rewrite Nat.add_0_r. exact Heq.
        -- eauto.
      * intros H. pose proof (H 0%nat value0 eq_refl Hnull) as H0.
        rewrite Nat.add_0_r in H0. rewrite H0. simpl.
        apply (proj2 (IH _)), (proj2 Hshift).
        intros i value Hi Hn. apply (H (S i) value Hi Hn).
Qed.

(** X9.  [_matchProperties] accepts exactly when every expected value that is
    neither [null] nor [undefined] is deeply equal to the decoded value at
    its index. *)
Theorem matchProperties_iff (actual : JValue) (expected : list JValue) :
  _matchProperties actual expected = Ok true <->
  forall i value, expected !! i = Some value -> nullish value = false ->
                  isDeepEqual value (get_prop actual (KIdx i)) = Ok true.
Proof. unfold _matchProperties. apply matchProperties_from_iff. Qed.

Lemma matchProperties_from_wildcards (actual : JValue) (expected : list JValue) :
  forallb nullish expected = true ->
  forall index, matchProperties_from actual expected index = Ok true.
Proof.
  induction expected as [| value expected IH]; intros H index; simpl; [reflexivity |].
  simpl in H. apply andb_true_iff in H as [-> H]. apply IH. exact H.
Qed.

(** X10.  Expected values that are all [null] or [undefined] match any decoded
    value, and a filter that carries them accepts the records that it
    accepts without them. *)
Theorem wildcards_match_anything (expected : list JValue) :
  forallb nullish expected = true ->
  (forall actual, _matchProperties actual expected = Ok true) /\
  (forall actual f,
      candidate actual (set_nonIndexed f (Some expected))
        = candidate actual (set_nonIndexed f None)).
Proof.
  intros H. split.
  - intros actual. apply matchProperties_from_wildcards. exact H.
  - intros actual f. unfold candidate. simpl.
    change (_matchTopics actual (set_nonIndexed f (Some expected)))
      with (_matchTopics actual (set_nonIndexed f None)).
    destruct (_matchTopics actual (set_nonIndexed f None)); [| reflexivity].
    apply matchProperties_from_wildcards. exact H.
Qed.

Lemma wildcards_match_anything_instance :
  forallb nullish [JNull; JUndefined] = true /\
  _matchProperties ex_struct_result [JNull; JUndefined] = Ok true.
Proof.
  split; [reflexivity |].
  apply (proj1 (wildcards_match_anything [JNull; JUndefined] eq_refl)).
Defined.

(** ** [isDeepEqual] on arrays *)

Lemma isDeepEqual_arrays (r0 r1 : nat) (a0 a1 : list JValue)
    (p0 p1 : list (string * JValue)) :
  isDeepEqual (JArr r0 a0 p0) (JArr r1 a1 p1) =
    if Nat.eqb (length a0) (length a1) then items_equal a0 a1 0 else Ok false.
Proof.
  simpl. destruct (Nat.eqb (length a0) (length a1)); [| reflexivity].
  generalize 0%nat. induction a0 as [| x a0 IH]; intros i; simpl; [reflexivity |].
  destruct (isDeepEqual x (nth i a1 JUndefined)) as [[|] |]; simpl; auto.
Qed.

Lemma items_equal_iff (l a1 : list JValue) :
  forall index,
    items_equal l a1 index = Ok true <->
    forall i x, l !! i = Some x ->
                isDeepEqual x (nth (index + i) a1 JUndefined) = Ok true.
Proof.
  induction l as [| x0 l IH]; intros index; simpl.
  - split; [| reflexivity]. intros _ i x Hi. discriminate.
  - split.
    + intros H. apply bind_Ok in H as (eq & Heq & H). destruct eq; [| discriminate].
      pose proof (proj1 (IH _) H) as H'. intros [| i] x Hi; simpl in Hi.
      * injection Hi as <-. rewrite Nat.add_0_r. exact Heq.
      * replace (index + S i)%nat with (S index + i)%nat by lia. eauto.
    + intros H. pose proof (H 0%nat x0 eq_refl) as H0. rewrite Nat.add_0_r in H0.
      rewrite H0. simpl. apply (proj2 (IH _)). intros i x Hi.
      replace (S index + i)%nat with (index + S i)%nat by lia. apply (H (S i) x Hi).
Qed.


(** ** [isDeepEqual] on one value *)

Lemma mem_string_In (name : string) (names : list string) :
  mem_string name names = true <-> In name names.
Proof.
  unfold mem_string. rewrite existsb_exists. split.
  - intros (x & Hx & Heq). apply String.eqb_eq in Heq. subst. exact Hx.
  - intros H. exists name. split; [exact H | apply String.eqb_refl].
Qed.

Lemma assoc_distinct (props : list (string * JValue)) (key : string) (x : JValue) :
  distinct (map fst props) = true -> In (key, x) props -> assoc key props = Some x.
Proof.
  induction props as [| [k v] props IH]; simpl; [contradiction |].
  intros H Hin. apply andb_true_iff in H as [Hk Hd].
  destruct Hin as [[= -> ->] | Hin]; [rewrite String.eqb_refl; reflexivity |].
  destruct (String.eqb_spec k key) as [-> | Hne]; [| auto].
  apply negb_true_iff in Hk. exfalso.
  assert (Hmem : mem_string key (map fst props) = true).
  { apply mem_string_In. apply (in_map fst) in Hin. exact Hin. }
  congruence.
Qed.

Lemma own_name_found (props : list (string * JValue)) (key : string) (x : JValue) :
  In (key, x) props ->
  existsb (Key_eqb (KName key)) (map (fun p => KName (fst p)) props) = true.
Proof.
  intros Hin. apply existsb_exists. exists (KName key). split.
  - apply (in_map (fun p => KName (fst p))) in Hin. exact Hin.
  - simpl. apply String.eqb_refl.
Qed.

Lemma isDeepEqual_object (r0 : nat) (p0 : list (string * JValue)) (v1 : JValue) :
  isDeepEqual (JObj r0 p0) v1 =
    if negb (JType_eqb TyObject (typeof v1)) then Ok false
    else
      k1 <- getOwnPropertyNames v1 ;;;
      if negb (Nat.eqb (length p0) (length k1)) then Ok false
      else props_equal p0 k1 v1.
Proof.
  simpl. destruct (typeof v1); simpl; try reflexivity.
  destruct (getOwnPropertyNames v1) as [k1 | err]; simpl; [| reflexivity].
  destruct (negb (Nat.eqb (length p0) (length k1))); [reflexivity |].
  induction p0 as [| [key x] p0 IH]; simpl; [reflexivity |].
  destruct (negb (existsb (Key_eqb (KName key)) k1)); [reflexivity |].
  destruct (isDeepEqual x (get_prop v1 (KName key))) as [[|] |]; simpl; auto.
Qed.



Lemma isDeepEqual_total_instance :
  exists b, isDeepEqual ex_struct_result (ex_decode (ex_log "A" "1")) = Ok b.
Proof.
  apply (isDeepEqual_total ex_struct_result (ex_decode (ex_log "A" "1"))); reflexivity.
Defined.

(** ** [filtersToDecoders] *)

Lemma add_decoder_lookup (m : gmap string (gmap string EventDataDecoder))
    (f : ExtendedEventFilter) (emitter topic : string) :
  decoder_for (add_decoder m f) emitter topic =
    if keyed emitter topic f then Some (decodeEventData f) else decoder_for m emitter topic.
Proof.
  unfold add_decoder, keyed, filter_key, decoder_for.
  destruct (filter_address f) as [address |]; [| reflexivity].
  destruct (filter_topics f) as [topics |]; [| reflexivity].
  destruct topics as [| [| eventType | alts] topics]; simpl;
    try (destruct (truthy_string address); reflexivity).
  destruct (truthy_string address); [| reflexivity].
  destruct (String.eqb_spec (toUpperCase address) emitter) as [<- | Hne]; simpl.
  - rewrite lookup_insert_eq.
    destruct (String.eqb_spec eventType topic) as [<- | Hne].
    + rewrite lookup_insert_eq. reflexivity.
    + rewrite lookup_insert_ne by congruence.
      destruct (m !! toUpperCase address); simpl; [reflexivity | apply lookup_empty].
  - rewrite lookup_insert_ne by congruence. reflexivity.
Qed.

(** X14.  The decoder [filtersToDecoders] holds for an emitter and a topic is
    that of the last filter filed under them, and none when there is no
    such filter. *)
Theorem filtersToDecoders_last_wins (filters : list ExtendedEventFilter)
    (emitter topic : string) :
  decoder_for (filtersToDecoders filters) emitter topic =
    option_map decodeEventData (last (List.filter (keyed emitter topic) filters)).
Proof.
  unfold filtersToDecoders.
  induction filters as [| f filters IH] using rev_ind.
  - simpl. unfold decoder_for. rewrite lookup_empty. reflexivity.
  - rewrite fold_left_app. simpl. rewrite add_decoder_lookup, List.filter_app. simpl.
    destruct (keyed emitter topic f).
    + rewrite last_snoc. reflexivity.
    + rewrite app_nil_r. exact IH.
Qed.

(** ** [filterEventFromLog] on concatenated logs *)

Lemma decodeEventLogs_app (l1 l2 : list Log)
    (decoderLookup : string -> option string -> option EventDataDecoder) :
  decodeEventLogs (l1 ++ l2) decoderLookup =
    decodeEventLogs l1 decoderLookup ++ decodeEventLogs l2 decoderLookup.
Proof.
  induction l1 as [| entry l1 IH]; simpl; [reflexivity |].
  destruct (decoderLookup _ _); simpl; rewrite IH; reflexivity.
Qed.

Lemma decodeEventLogs_length (logs : list Log)
    (decoderLookup : string -> option string -> option EventDataDecoder) :
  (length (decodeEventLogs logs decoderLookup) <= length logs)%nat.
Proof.
  induction logs as [| entry logs IH]; simpl; [lia |].
  destruct (decoderLookup _ _); simpl; lia.
Qed.

(** X15.  [filterEventFromLog] decodes the records one by one, in their order:
    on logs put end to end it returns its results put end to end, and it
    never returns more values than there are records. *)
Theorem filterEventFromLog_app (l1 l2 : list Log) (f : ExtendedEventFilter) :
  filterEventFromLog (l1 ++ l2) f = filterEventFromLog l1 f ++ filterEventFromLog l2 f /\
  (length (filterEventFromLog l1 f) <= length l1)%nat.
Proof.
  unfold filterEventFromLog. split; [apply decodeEventLogs_app | apply decodeEventLogs_length].
Qed.

(** ** What the filter builder returns *)

Lemma build_param_Ok (properties : JValue) (st st' : BuildState) (param : ParamType)
    (index : nat) :
  build_param properties st param index = Ok st' ->
  consistent properties param index = true /\
  b_indexed st' = b_indexed st
      ++ [if param_indexed param then resolved_value properties param index else JNull] /\
  b_nonIndexed st' = b_nonIndexed st
      ++ [if param_indexed param then JNull else resolved_value properties param index] /\
  b_hasNonIndexed st' =
    (b_hasNonIndexed st
     || negb (is_null (if param_indexed param then JNull
                       else resolved_value properties param index)))%bool.
Proof.
  unfold build_param, consistent, resolved_value, named_value, positional_value.
  set (nv0 := get_prop properties (KName (param_name param))).
  set (pv := if isArray properties then or_null (get_prop properties (KIdx index)) else JNull).
  set (nv := if is_undefined nv0 then JNull else nv0).
  intros H. apply bind_Ok in H as (value & Hv & H).
  assert (Hvalue : (is_null nv || is_null pv || strict_eq nv pv)%bool = true /\
                   value = if is_null nv then pv else if is_null pv then nv else pv).
  { destruct (is_null nv); simpl in *; [injection Hv as <-; auto |].
    destruct (is_null pv); simpl in *; [injection Hv as <-; auto |].
    apply bind_Ok in Hv as (u & Hu & Hv). apply expect_Ok in Hu. injection Hv as <-. auto. }
  destruct Hvalue as [Hc ->]. split; [exact Hc |].
  destruct (param_indexed param); injection H as <-; simpl; repeat split; auto.
  rewrite orb_false_r. reflexivity.
Qed.

Lemma imap_snoc_index {A B : Type} (f : nat -> A -> B) (l : list A) (x : A) :
  imap f (l ++ [x]) = imap f l ++ [f (length l) x].
Proof. rewrite imap_app. simpl. rewrite Nat.add_0_r. reflexivity. Qed.

Lemma build_params_Ok (properties : JValue) (params : list ParamType) :
  forall index st st',
    build_params properties params index st = Ok st' ->
    (forall i param, params !! i = Some param ->
                     consistent properties param (index + i) = true) /\
    b_indexed st' = b_indexed st ++ indexed_args properties params index /\
    b_nonIndexed st' = b_nonIndexed st ++ nonIndexed_args properties params index /\
    b_hasNonIndexed st' = (b_hasNonIndexed st || any_nonIndexed properties params index)%bool.
Proof.
  unfold indexed_args, nonIndexed_args, any_nonIndexed.
  induction params as [| param params IH]; intros index st st' H; simpl in H.
  - injection H as <-. simpl. rewrite !app_nil_r, orb_false_r.
    repeat split; auto. intros i param Hi. discriminate.
  - apply bind_Ok in H as (st1 & H1 & H).
    apply build_param_Ok in H1 as (Hc & Hi1 & Hn1 & Hh1).
    apply IH in H as (Hcs & Hi & Hn & Hh).
    assert (Hshift : forall g : nat -> ParamType -> JValue,
               (forall i p, g (index + S i)%nat p = g (S index + i)%nat p)).
    { intros g i p. f_equal. lia. }
    repeat split.
    + intros [| i] p Hp; simpl in Hp.
      * injection Hp as <-. rewrite Nat.add_0_r. exact Hc.
      * replace (index + S i)%nat with (S index + i)%nat by lia. eauto.
    + rewrite Hi, Hi1, <- app_assoc. simpl. rewrite Nat.add_0_r. do 2 f_equal.
      apply imap_ext. intros i p _. simpl. replace (index + S i)%nat with (S (index + i)) by lia.
      reflexivity.
    + rewrite Hn, Hn1, <- app_assoc. simpl. rewrite Nat.add_0_r. do 2 f_equal.
      apply imap_ext. intros i p _. simpl. replace (index + S i)%nat with (S (index + i)) by lia.
      reflexivity.
    + rewrite Hh, Hh1. simpl. rewrite Nat.add_0_r, <- orb_assoc. do 2 f_equal.
      f_equal. apply imap_ext. intros i p _. simpl.
      replace (index + S i)%nat with (S (index + i)) by lia. reflexivity.
Qed.

(** X16.  When the filter builder returns, either the specification has no key
    and the result is an empty list of topic arguments, or the position
    and the name agree on every parameter, the topic arguments are the
    values settled on for the indexed parameters, [null] elsewhere, and
    the values to match after decoding, returned only when one of them is
    not [null], are those of the other parameters, [null] elsewhere. *)
Theorem buildFilterArgs_Ok (fragment : EventFragment) (properties : JValue)
    (indexed : list JValue) (values : option (list JValue)) :
  _buildFilterArgs fragment properties = Ok (indexed, values) ->
  (empty_spec properties = true /\ indexed = [] /\ values = None) \/
  (empty_spec properties = false /\
   (forall i param, inputs fragment !! i = Some param ->
                    consistent properties param i = true) /\
   indexed = indexed_args properties (inputs fragment) 0 /\
   values = if any_nonIndexed properties (inputs fragment) 0
            then Some (nonIndexed_args properties (inputs fragment) 0) else None).
Proof.
  unfold _buildFilterArgs, empty_spec. intros H.
  apply bind_Ok in H as (u & _ & H). apply bind_Ok in H as (st & Hst & H).
  cbn [b_namedCount] in Hst.
  assert (Hcount : (0 <= count_named properties)%Z) by (unfold count_named; lia).
  assert (Hlen : (if isArray properties then array_length properties else 0%nat)
                 = array_length properties).
  { destruct properties; reflexivity. }
  rewrite Hlen in Hst.
  destruct ((0 <? count_named properties)%Z || (0 <? array_length properties)%nat)%bool
    eqn:Hany.
  - right. apply bind_Ok in Hst as (st1 & Hloop & Hst).
    apply bind_Ok in Hst as (u' & _ & Hst). injection Hst as <-.
    apply build_params_Ok in Hloop as (Hc & Hi & Hn & Hh). simpl in Hi, Hn, Hh.
    split.
    { apply orb_true_iff in Hany as [Hany | Hany].
      - apply Z.ltb_lt in Hany. replace (count_named properties =? 0)%Z with false; [reflexivity |].
        symmetry. apply Z.eqb_neq. lia.
      - apply Nat.ltb_lt in Hany.
        replace (array_length properties =? 0)%nat with false; [apply andb_false_r |].
        symmetry. apply Nat.eqb_neq. lia. }
    split; [exact Hc |]. rewrite Hh in H.
    destruct (any_nonIndexed properties (inputs fragment) 0);
      injection H as <- <-; rewrite Hi, ?Hn; auto.
  - left. injection Hst as <-. simpl in H. injection H as <- <-.
    apply orb_false_iff in Hany as [H1 H2].
    apply Z.ltb_ge in H1. apply Nat.ltb_ge in H2.
    replace (count_named properties =? 0)%Z with true by (symmetry; apply Z.eqb_eq; lia).
    replace (array_length properties =? 0)%nat with true by (symmetry; apply Nat.eqb_eq; lia).
    auto.
Qed.

Lemma buildFilterArgs_Ok_instance :
  (empty_spec (JArr 1 [JStr "0xab"] [("amount", JNum 5)]) = true /\
   [JStr "0xab"; JNull] = [] /\ Some [JNull; JNum 5] = None) \/
  (empty_spec (JArr 1 [JStr "0xab"] [("amount", JNum 5)]) = false /\
   (forall i param, inputs ex_transfer_fragment !! i = Some param ->
                    consistent (JArr 1 [JStr "0xab"] [("amount", JNum 5)]) param i = true) /\
   [JStr "0xab"; JNull]
     = indexed_args (JArr 1 [JStr "0xab"] [("amount", JNum 5)])
         (inputs ex_transfer_fragment) 0 /\
   Some [JNull; JNum 5]
     = if any_nonIndexed (JArr 1 [JStr "0xab"] [("amount", JNum 5)])
            (inputs ex_transfer_fragment) 0
       then Some (nonIndexed_args (JArr 1 [JStr "0xab"] [("amount", JNum 5)])
                    (inputs ex_transfer_fragment) 0)
       else None).
Proof.
  apply (buildFilterArgs_Ok ex_transfer_fragment (JArr 1 [JStr "0xab"] [("amount", JNum 5)])).
  reflexivity.
Defined.

(** ** Named keys that are no parameter *)

Lemma build_params_namedCount (properties : JValue) (params : list ParamType) :
  forall index st st',
    build_params properties params index st = Ok st' ->
    b_namedCount st' =
      (b_namedCount st
       - Z.of_nat (length (List.filter (given_by_name properties) params)))%Z.
Proof.
  induction params as [| param params IH]; intros index st st' H; simpl in H.
  - injection H as <-. simpl. lia.
  - apply bind_Ok in H as (st1 & H1 & H). apply IH in H. rewrite H. clear H.
    assert (Hc : b_namedCount st1 =
                 if given_by_name properties param then (b_namedCount st - 1)%Z
                 else b_namedCount st).
    { unfold build_param, given_by_name in *.
      apply bind_Ok in H1 as (value & _ & H1).
      destruct (is_undefined (get_prop properties (KName (param_name param))));
        destruct (param_indexed param); injection H1 as <-; reflexivity. }
    rewrite Hc. simpl. destruct (given_by_name properties param); simpl; lia.
Qed.

Lemma build_params_object (ref : nat) (props : list (string * JValue))
    (params : list ParamType) :
  forall index st, exists st', build_params (JObj ref props) params index st = Ok st'.
Proof.
  induction params as [| param params IH]; intros index st; simpl; [eauto |].
  assert (H1 : exists st1, build_param (JObj ref props) st param index = Ok st1).
  { unfold build_param. simpl isArray. cbv iota. simpl is_null at 2.
    destruct (negb _); simpl; destruct (param_indexed param); eauto. }
  destruct H1 as [st1 ->]. simpl. apply IH.
Qed.

Lemma distinct_NoDup (names : list string) : distinct names = true -> NoDup names.
Proof.
  induction names as [| name names IH]; simpl; intros H; [apply NoDup_nil_2 |].
  apply andb_true_iff in H as [Hn Hd]. apply NoDup_cons. split; [| auto].
  intros Hin. apply negb_true_iff in Hn.
  apply list_elem_of_In, mem_string_In in Hin. congruence.
Qed.

Lemma NoDup_names_filter (P : ParamType -> bool) (params : list ParamType) :
  NoDup (map param_name params) -> NoDup (map param_name (List.filter P params)).
Proof.
  induction params as [| param params IH]; simpl; intros H; [exact H |].
  apply NoDup_cons in H as [Hnotin Hnd].
  destruct (P param); simpl; [| auto].
  apply NoDup_cons. split; [| auto].
  intros Hin. apply Hnotin. apply list_elem_of_In in Hin. apply list_elem_of_In.
  apply in_map_iff in Hin as (p & Hp & Hin). apply in_map_iff. exists p.
  split; [exact Hp |]. apply filter_In in Hin as [Hin _]. exact Hin.
Qed.

Lemma assoc_Some_key (name : string) (props : list (string * JValue)) (x : JValue) :
  assoc name props = Some x -> In name (map fst props).
Proof.
  induction props as [| [k v] props IH]; simpl; [discriminate |].
  destruct (String.eqb_spec k name) as [-> | Hne]; [auto |]. intros H. right. auto.
Qed.




(** ** The compiled filter builder and the source agree *)

Lemma parseInt_isNaN_None (key : string) :
  parseInt_isNaN key = true -> parseInt key = None.
Proof.
  unfold parseInt_isNaN, parseInt.
  destruct (skip_spaces key) as [| c s]; simpl; [reflexivity |].
  destruct (Ascii.eqb c "-") eqn:Hminus; simpl.
  - rewrite orb_true_r. destruct s as [| d s]; [reflexivity |].
    destruct (is_digit d); [discriminate | reflexivity].
  - destruct (Ascii.eqb c "+"); simpl.
    + destruct s as [| d s]; [reflexivity |].
      destruct (is_digit d); [discriminate | reflexivity].
    + destruct (is_digit c); [discriminate | reflexivity].
Qed.

Lemma dist_count_indices (n : nat) :
  forall (a : nat) (c : Z),
    fold_left dist_count_key (map KIdx (seq a n)) ((Z.of_nat a - 1)%Z, c)
      = ((Z.of_nat (a + n) - 1)%Z, c).
Proof.
  induction n as [| n IH]; intros a c; simpl.
  - rewrite Nat.add_0_r. reflexivity.
  - unfold dist_count_key at 2. simpl.
    replace (Z.of_nat a - 1 <? Z.of_nat a)%Z with true by (symmetry; apply Z.ltb_lt; lia).
    replace (Z.of_nat a) with (Z.of_nat (S a) - 1)%Z at 1 by lia.
    rewrite IH. do 2 f_equal. lia.
Qed.

Lemma dist_count_indices_0 (n : nat) (c : Z) :
  fold_left dist_count_key (map KIdx (seq 0 n)) ((-1)%Z, c) = ((Z.of_nat n - 1)%Z, c).
Proof. apply (dist_count_indices n 0 c). Qed.

Lemma dist_count_names (names : list string) :
  forallb parseInt_isNaN names = true ->
  forall (m c : Z),
    fold_left dist_count_key (map KName names) (m, c)
      = (m, (c + Z.of_nat (length names))%Z).
Proof.
  induction names as [| name names IH]; intros H m c; simpl.
  - f_equal. lia.
  - simpl in H. apply andb_true_iff in H as [Hname H].
    unfold dist_count_key at 2. simpl. rewrite (parseInt_isNaN_None _ Hname). simpl.
    rewrite (IH H). f_equal. lia.
Qed.

Lemma filter_named_keys (names : list string) (b : bool) :
  forallb parseInt_isNaN names = true ->
  List.filter (fun key => (b || key_isNaN key)%bool) (map KName names) = map KName names.
Proof.
  induction names as [| name names IH]; simpl; intros H; [reflexivity |].
  apply andb_true_iff in H as [-> H]. rewrite orb_true_r, (IH H). reflexivity.
Qed.

Lemma map_KName_fst (props : list (string * JValue)) :
  map (fun p => KName (fst p)) props = map KName (map fst props).
Proof. rewrite map_map. reflexivity. Qed.

Lemma filter_any_named_keys (names : list string) (f : Key -> bool) :
  (forall key, key_isNaN key = true -> f key = true) ->
  forallb parseInt_isNaN names = true ->
  List.filter f (map KName names) = map KName names.
Proof.
  intros Hf. induction names as [| name names IH]; simpl; intros H; [reflexivity |].
  apply andb_true_iff in H as [Hname H]. rewrite (Hf (KName name) Hname), (IH H).
  reflexivity.
Qed.

Lemma count_named_names (properties : JValue) :
  forallb parseInt_isNaN (named_keys properties) = true ->
  count_named properties = Z.of_nat (length (named_keys properties)).
Proof.
  unfold count_named.
  destruct properties as [| | b | n | s | fname | ref items props | ref props];
    try reflexivity; intros H; cbn [named_keys for_in_keys isArray negb] in *.
  - rewrite List.filter_app, filter_index_keys, map_KName_fst.
    rewrite filter_any_named_keys; [| intros key ->; reflexivity | exact H].
    simpl. rewrite length_map. reflexivity.
  - rewrite map_KName_fst.
    rewrite filter_any_named_keys; [| intros key _; reflexivity | exact H].
    rewrite length_map. reflexivity.
Qed.

Lemma counts_agree (properties : JValue) :
  forallb parseInt_isNaN (named_keys properties) = true ->
  dist_count_keys properties =
    ((if isArray properties then Z.of_nat (array_length properties) - 1 else -1)%Z,
     count_named properties).
Proof.
  intros H. rewrite (count_named_names _ H). unfold dist_count_keys.
  destruct properties as [| | b | n | s | fname | ref items props | ref props];
    try reflexivity; cbn [named_keys for_in_keys isArray array_length] in *.
  - rewrite fold_left_app, map_KName_fst, dist_count_indices_0.
    rewrite (dist_count_names _ H). reflexivity.
  - rewrite map_KName_fst, (dist_count_names _ H). reflexivity.
Qed.

Lemma dist_build_param_agrees (properties : JValue) (st : BuildState)
    (param : ParamType) (index : nat) :
  dist_build_param
    (if isArray properties then Z.of_nat (array_length properties) - 1 else -1)%Z
    properties st param index
  = build_param properties st param index.
Proof.
  unfold dist_build_param, build_param.
  assert (Hvalue : (if (Z.of_nat index <=?
                        (if isArray properties
                         then Z.of_nat (array_length properties) - 1 else -1))%Z
                    then or_null (get_prop properties (KIdx index)) else JNull)
                   = (if isArray properties
                      then or_null (get_prop properties (KIdx index)) else JNull)).
  { destruct (isArray properties) eqn:Harr.
    - destruct properties as [| | b | n | s | fname | ref items props | ref props];
        try discriminate. simpl.
      destruct (Z.leb_spec (Z.of_nat index) (Z.of_nat (length items) - 1)) as [Hle | Hgt];
        [reflexivity |].
      rewrite nth_overflow by lia. reflexivity.
    - replace (Z.of_nat index <=? -1)%Z with false; [reflexivity |].
      symmetry. apply Z.leb_gt. lia. }
  rewrite Hvalue. reflexivity.
Qed.

Lemma dist_build_params_agrees (properties : JValue) (params : list ParamType) :
  forall index st,
    dist_build_params
      (if isArray properties then Z.of_nat (array_length properties) - 1 else -1)%Z
      properties params index st
    = build_params properties params index st.
Proof.
  induction params as [| param params IH]; intros index st; simpl; [reflexivity |].
  rewrite dist_build_param_agrees.
  destruct (build_param properties st param index); simpl; [apply IH | reflexivity].
Qed.



(** ** [_verifyByFragment] and [_verifyByProperties] *)

Lemma is_undefined_true (v : JValue) : v <> JUndefined -> is_undefined v = false.
Proof. destruct v; simpl; congruence. Qed.

Lemma verifyByFragment_from_present (params : list ParamType) (name : string)
    (args : JValue) :
  forall index,
    (forall i param, params !! i = Some param -> param_present args (index + i) param) ->
    verifyByFragment_from params index name args = Ok tt.
Proof.
  induction params as [| param params IH]; intros index H; simpl; [reflexivity |].
  destruct (H 0%nat param eq_refl) as [Hi Hn]. rewrite Nat.add_0_r in Hi.
  rewrite (is_undefined_true _ Hi). simpl.
  assert (Hnamed : (if truthy_string (param_name param)
                    then expect (negb (is_undefined
                                         (get_prop args (KName (param_name param)))))
                                (PropertyNameUndefined name (param_name param))
                    else Ok tt) = Ok tt).
  { destruct (param_name param) as [| c s] eqn:Hname; [reflexivity |]. simpl.
    rewrite is_undefined_true; [reflexivity |]. apply Hn. discriminate. }
  rewrite Hnamed. simpl. apply IH. intros i p Hp.
  replace (S index + i)%nat with (index + S i)%nat by lia. apply (H (S i) p Hp).
Qed.

(** X20.  [_verifyByFragment] passes exactly the decoded values in which every
    declared parameter is defined, at its index and, when it has a name,
    under its name. *)
Theorem verifyByFragment_iff (fragment : EventFragment) (name : string) (args : JValue) :
  _verifyByFragment fragment name args = Ok tt <->
  forall i param, inputs fragment !! i = Some param -> param_present args i param.
Proof.
  unfold _verifyByFragment. split.
  - intros H i param Hi. apply (verifyByFragment_from_Ok _ _ _ 0%nat H i param Hi).
  - intros H. apply verifyByFragment_from_present. exact H.
Qed.

Lemma verify_items_iff (values : list JValue) (name : string) (args : JValue) :
  forall index,
    verify_items values index name args = Ok tt <->
    forall i value, values !! i = Some value ->
                    entry_matches args (KIdx (index + i), value).
Proof.
  unfold entry_matches.
  induction values as [| value0 values IH]; intros index; simpl.
  - split; [| reflexivity]. intros _ i value Hi. discriminate.
  - split.
    + intros H. apply bind_Ok in H as (u & Hu & H).
      pose proof (proj1 (IH _) H) as H'.
      intros [| i] value Hi Hn; simpl in Hi.
      * injection Hi as <-. simpl in Hn. rewrite Hn in Hu. simpl in Hu.
        apply expect_Ok in Hu. rewrite Nat.add_0_r. exact Hu.
      * replace (index + S i)%nat with (S index + i)%nat by lia. apply (H' i value Hi Hn).
    + intros H.
      assert (H0 : (if negb (nullish value0)
                    then expect (strict_eq (get_prop args (KIdx index)) value0)
                                (MismatchedIndex name index)
                    else Ok tt) = Ok tt).
      { destruct (nullish value0) eqn:Hn; [reflexivity |]. simpl.
        pose proof (H 0%nat value0 eq_refl Hn) as H0. rewrite Nat.add_0_r in H0.
        simpl in H0. rewrite H0. reflexivity. }
      rewrite H0. simpl. apply (proj2 (IH _)). intros i value Hi Hn.
      replace (S index + i)%nat with (index + S i)%nat by lia. apply (H (S i) value Hi Hn).
Qed.

Lemma verify_entries_iff (es : list (Key * JValue)) (name : string) (args : JValue) :
  verify_entries es name args = Ok tt <-> Forall (entry_matches args) es.
Proof.
  unfold entry_matches. induction es as [| [key value] es IH]; simpl.
  - split; [constructor | reflexivity].
  - split.
    + intros H. apply bind_Ok in H as (u & Hu & H). constructor; [| apply IH; exact H].
      simpl. intros Hn. rewrite Hn in Hu. simpl in Hu. apply expect_Ok in Hu. exact Hu.
    + intros H. apply Forall_cons in H as [H0 H]. simpl in H0.
      destruct (nullish value) eqn:Hn; simpl.
      * apply IH. exact H.
      * rewrite (H0 eq_refl). simpl. apply IH. exact H.
Qed.

Lemma entries_items (ref : nat) (items : list JValue) (props : list (string * JValue))
    (i : nat) (value : JValue) :
  items !! i = Some value -> (KIdx i, value) ∈ entries (JArr ref items props).
Proof.
  intros Hi. simpl. apply elem_of_app. left.
  apply list_elem_of_lookup. exists i. rewrite list_lookup_imap, Hi. reflexivity.
Qed.

(** X21.  [_verifyByProperties] passes exactly the decoded values that hold,
    under every key of [expected] whose value is neither [null] nor
    [undefined], a value equal ([===]) to it. *)
Theorem verifyByProperties_iff (expected : JValue) (name : string) (args : JValue) :
  _verifyByProperties expected name args = Ok tt <->
  Forall (entry_matches args) (entries expected).
Proof.
  unfold _verifyByProperties. split.
  - intros H. apply bind_Ok in H as (u & _ & H).
    exact (proj1 (verify_entries_iff _ _ _) H).
  - intros H.
    assert (H0 : match expected with
                 | JArr _ items _ => verify_items items 0 name args
                 | _ => Ok tt
                 end = Ok tt).
    { destruct expected as [| | b | n | s | fname | ref items props | ref props];
        try reflexivity.
      apply (proj2 (verify_items_iff _ _ _ 0%nat)). intros i value Hi.
      rewrite Forall_forall in H. apply (H (KIdx i, value)).
      apply (entries_items ref items props i value Hi). }
    rewrite H0. simpl. exact (proj2 (verify_entries_iff _ _ _) H).
Qed.

(** ** [findEventArgs] and [expectOne] *)

Lemma findEventArgs_eq (name : string) (logs : list Log) (emitter : Contract) :
  findEventArgs name logs emitter =
    match getEvent (interface emitter) name with
    | None => Err (NoSuchEvent name)
    | Some fragment =>
        match emitted emitter fragment logs with
        | [] => Err (FailedToFindAnyEvent name)
        | entry :: entries' =>
            Ok (map (decoded emitter fragment) (entry :: entries'))
        end
    end.
Proof.
  unfold findEventArgs, get_fragment, emitted.
  destruct (getEvent (interface emitter) name) as [fragment |]; [| reflexivity].
  simpl. rewrite findEventArgs_loop_filter.
  destruct (List.filter _ logs); reflexivity.
Qed.

(** X22.  [findEventArgs] fails for an event the interface does not know,
    whatever the logs; otherwise it returns, in their order, the decodings
    of exactly the records that carry the event's tag as topic 0 and the
    emitter's address up to letter case, and fails when there is none. *)
Theorem findEventArgs_selects (name : string) (logs : list Log) (emitter : Contract) :
  findEventArgs name logs emitter =
    match getEvent (interface emitter) name with
    | None => Err (NoSuchEvent name)
    | Some fragment =>
        match emitted emitter fragment logs with
        | [] => Err (FailedToFindAnyEvent name)
        | entry :: entries' =>
            Ok (map (decoded emitter fragment) (entry :: entries'))
        end
    end.
Proof. apply findEventArgs_eq. Qed.

Section ExpectOne.
Variable customName : string.
Variable emitter : Contract.

(** X23.  When [expectOne] returns, exactly one record of the logs is an event
    of the emitter; the value returned is its decoding, every declared
    parameter is defined in it, and it holds a value equal ([===]) to
    each expected value that is neither [null] nor [undefined]. *)
Theorem expectOne_Ok (logs : list Log) (expected r : JValue) :
  expectOne customName emitter logs expected = Ok r ->
  exists fragment entry,
    getEvent (interface emitter) customName = Some fragment /\
    emitted emitter fragment logs = [entry] /\
    r = decoded emitter fragment entry /\
    (forall i param, inputs fragment !! i = Some param -> param_present r i param) /\
    Forall (entry_matches r) (entries expected).
Proof.
  unfold expectOne. rewrite findEventArgs_eq.
  destruct (getEvent (interface emitter) customName) as [fragment |] eqn:Hf; [| discriminate].
  destruct (emitted emitter fragment logs) as [| entry [| entry' es]] eqn:He;
    try discriminate.
  simpl. unfold verifyArgs, get_fragment. rewrite Hf. simpl.
  intros H. apply bind_Ok in H as (u & Hprops & H). apply bind_Ok in H as (u' & Hfrag & H).
  injection H as <-. exists fragment, entry.
  split; [reflexivity |]. split; [exact He |]. split; [reflexivity |]. split.
  - intros i param Hi. destruct u'.
    apply (verifyByFragment_from_Ok _ _ _ 0%nat Hfrag i param Hi).
  - destruct (nullish expected) eqn:Hn; simpl in Hprops.
    + destruct expected; try discriminate; constructor.
    + unfold _verifyByProperties in Hprops. apply bind_Ok in Hprops as (u0 & _ & Hprops).
      destruct u. exact (proj1 (verify_entries_iff _ _ _) Hprops).
Qed.

(** X24.  With two or more events of the emitter in the logs, [expectOne]
    fails, telling how many it found. *)
Theorem expectOne_too_many (logs : list Log) (expected : JValue)
    (fragment : EventFragment) :
  getEvent (interface emitter) customName = Some fragment ->
  (2 <= length (emitted emitter fragment logs))%nat ->
  expectOne customName emitter logs expected
    = Err (ExpectingSingleEvent customName (length (emitted emitter fragment logs))).
Proof.
  intros Hf Hn. unfold expectOne. rewrite findEventArgs_eq, Hf.
  destruct (emitted emitter fragment logs) as [| entry [| entry' es]]; simpl in *; try lia.
  rewrite length_map. reflexivity.
Qed.
End ExpectOne.

Lemma expectOne_Ok_instance :
  exists fragment entry,
    getEvent (interface ex_emitter_named) "Store" = Some fragment /\
    emitted ex_emitter_named fragment [ex_log "A" "1"; ex_log "B" "2"] = [entry] /\
    JArr 0 [JStr "2"] [("value", JStr "2")] = decoded ex_emitter_named fragment entry /\
    (forall i param, inputs fragment !! i = Some param ->
                     param_present (JArr 0 [JStr "2"] [("value", JStr "2")]) i param) /\
    Forall (entry_matches (JArr 0 [JStr "2"] [("value", JStr "2")]))
           (entries (JObj 7 [("value", JStr "2")])).
Proof.
  apply (expectOne_Ok "Store" ex_emitter_named [ex_log "A" "1"; ex_log "B" "2"]
           (JObj 7 [("value", JStr "2")]) (JArr 0 [JStr "2"] [("value", JStr "2")])).
  reflexivity.
Defined.

Lemma expectOne_too_many_instance :
  expectOne "Store" ex_emitter_named ex_logs JUndefined
    = Err (ExpectingSingleEvent "Store" 2).
Proof.
  apply (expectOne_too_many "Store" ex_emitter_named ex_logs JUndefined ex_store_fragment).
  - reflexivity.
  - simpl. lia.
Defined.

(** ** Properties of listeners, transactions and factory filters *)

Lemma try_bind_Done {A B : Type} (t : Try A) (k : A -> Try B) (b : B) :
  try_bind t k = Done b -> exists a, t = Done a /\ k a = Done b.
Proof. destruct t as [a | e]; simpl; [eauto | discriminate]. Qed.

Lemma lift_Done {A : Type} (r : Res A) (a : A) : lift r = Done a -> r = Ok a.
Proof. destruct r; simpl; [intros [= ->]; reflexivity | discriminate]. Qed.

Lemma listener_receive_Done {T : Type} (convert : Event -> Try T) (evs evs' : list T)
    (args : list Event) :
  listener_receive convert evs args = Done evs' ->
  exists event n e,
    last args = Some event /\ event_blockNumber event = Some n /\
    convert event = Done e /\ evs' = evs ++ [e].
Proof.
  unfold listener_receive, captured.
  destruct (last args) as [event |]; [| discriminate].
  destruct (event_blockNumber event) as [n |] eqn:Hn; [| discriminate].
  intros H. apply try_bind_Done in H as (e & He & [= <-]).
  exists event, n, e. auto.
Qed.

Lemma listener_receive_all_Done {T : Type} (convert : Event -> Try T)
    (calls : list (list Event)) :
  forall evs evs',
    listener_receive_all convert evs calls = Done evs' ->
    exists new,
      evs' = evs ++ new /\
      Forall2 (fun args e => exists event n,
                   last args = Some event /\ event_blockNumber event = Some n /\
                   convert event = Done e) calls new.
Proof.
  induction calls as [| args calls IH]; intros evs evs' H; simpl in H.
  - injection H as <-. exists []. rewrite app_nil_r. split; [reflexivity | constructor].
  - apply try_bind_Done in H as (evs1 & H1 & H).
    apply listener_receive_Done in H1 as (event & n & e & Hl & Hn & Hc & ->).
    apply IH in H as (new & -> & Hall).
    exists (e :: new). rewrite <- app_assoc. split; [reflexivity |].
    constructor; [eauto | exact Hall].
Qed.

Section EventFactoryMoreProps.
Variable encoder : TopicEncoder.
Variable customName : string.
Variable emitter : Contract.

(** X25.  After calls of its callback that all completed, a listener made by
    [newListener] holds one value per call, in the order of the calls:
    the arguments of the event passed last in the call, which has a block
    number, every declared parameter being defined in them. *)
Theorem listener_events (convert : Event -> Try JValue) (calls : list (list Event))
    (events : list JValue) :
  newListener customName emitter = Done convert ->
  listener_receive_all convert [] calls = Done events ->
  exists fragment,
    getEvent (interface emitter) customName = Some fragment /\
    Forall2 (fun args e => exists event n,
                 last args = Some event /\ event_blockNumber event = Some n /\
                 e = kept_args event /\
                 forall i param, inputs fragment !! i = Some param ->
                                 param_present e i param) calls events.
Proof.
  unfold newListener, get_fragment. intros Hnew Hall.
  destruct (getEvent (interface emitter) customName) as [fragment |]; [| discriminate].
  simpl in Hnew. injection Hnew as <-. exists fragment. split; [reflexivity |].
  apply listener_receive_all_Done in Hall as (new & -> & Hall). simpl.
  eapply Forall2_impl; [exact Hall |]. simpl.
  intros args e (event & n & Hl & Hn & Hc). exists event, n.
  unfold listener_convert in Hc. fold (kept_args event) in Hc.
  apply try_bind_Done in Hc as (u & Hv & [= <-]). apply lift_Done in Hv.
  split; [exact Hl |]. split; [exact Hn |]. split; [reflexivity |].
  intros j param Hj. destruct u.
  apply (verifyByFragment_from_Ok _ _ _ 0%nat Hv j param Hj).
Qed.

(** X26.  [waitAll] returns a receipt only of a transaction whose status is 1
    and whose logs hold at least one event of the emitter, after the
    function given, if any, completed on the decoded events; a source
    that is a receipt already is returned itself. *)
Theorem waitAll_Done (R : Type) (source : Try Resolved)
    (fn : option (list JValue -> Res R)) (receipt : ContractReceipt) :
  waitAll customName emitter source fn = Done receipt ->
  receipt_status receipt = Some 1%Z /\
  (forall r, source = Done (IsReceipt r) -> receipt = r) /\
  exists args,
    findEventArgs customName (receipt_logs receipt) emitter = Ok args /\
    args <> [] /\
    forall f, fn = Some f -> exists x, f args = Ok x.
Proof.
  unfold waitAll. intros H. apply try_bind_Done in H as (rc & Hst & H).
  apply try_bind_Done in H as (x & Hall & [= <-]). apply lift_Done in Hall.
  unfold successfulTransaction in Hst. apply try_bind_Done in Hst as (o & Ho & Hst).
  destruct o as [r |]; [| discriminate].
  destruct (receipt_status r) as [[| [p | p |] |] |] eqn:Hs; try discriminate.
  injection Hst as ->. split; [exact Hs |]. split.
  - intros r' ->. simpl in Ho. congruence.
  - unfold all in Hall. apply bind_Ok in Hall as (args & Hargs & Hall).
    exists args. split; [exact Hargs |].
    split; [eapply findEventArgs_nonempty; eauto |].
    intros f ->. apply bind_Ok in Hall as (y & Hy & _). eauto.
Qed.

Lemma newFilters_Done (expecteds : list JValue) :
  forall fs,
    newFilters encoder customName emitter expecteds = Done fs ->
    Forall2 (fun expected f => newFilter encoder customName emitter expected None = Done f)
            expecteds fs.
Proof.
  induction expecteds as [| expected expecteds IH]; intros fs H; simpl in H.
  - injection H as <-. constructor.
  - apply try_bind_Done in H as (f & Hf & H). apply try_bind_Done in H as (fs' & Hfs & H).
    injection H as <-. constructor; auto.
Qed.

Lemma newFilter_Done (expected : JValue) (f : ExtendedEventFilter) :
  newFilter encoder customName emitter expected None = Done f ->
  exists fragment built,
    getEvent (interface emitter) customName = Some fragment /\
    _buildFilterArgs fragment expected = Ok built /\
    nonIndexed f = snd built /\
    (forall entry, decodeEventData f entry = decoded emitter fragment entry) /\
    (contract_address emitter <> "*" ->
     filter_address f = Some (contract_address emitter)).
Proof.
  unfold newFilter, newExtendedEventFilter. simpl. intros H.
  apply try_bind_Done in H as (address & Ha & H).
  apply try_bind_Done in H as (fragment & Hf & H).
  apply try_bind_Done in H as (built & Hb & H).
  apply try_bind_Done in H as (topics & Ht & H). injection H as <-.
  apply lift_Done in Hf, Hb. unfold get_fragment in Hf.
  destruct (getEvent (interface emitter) customName) as [fragment' |]; [| discriminate].
  injection Hf as ->. exists fragment, built. repeat split; auto.
  simpl. intros Hne. apply String.eqb_neq in Hne. rewrite Hne in Ha.
  destruct (isAddress encoder (contract_address emitter)); [| discriminate].
  injection Ha as <-. reflexivity.
Qed.

(** X27.  When [expectOrdered] returns, it returns one event per expectation,
    in their order.  Each is the decoding, by the emitter's interface, of
    a record of the logs that carries the emitter's address up to letter
    case (unless that address is the wildcard "*"), and it matches the
    values the expectation gives to parameters that are not indexed. *)
Theorem expectOrdered_Done (logs : list Log) (expecteds : list JValue)
    (forwardOnly : option bool) (events : list JValue) :
  expectOrdered encoder customName emitter logs expecteds forwardOnly = Done events ->
  length events = length expecteds /\
  forall i expected, expecteds !! i = Some expected ->
    exists fragment built entry,
      getEvent (interface emitter) customName = Some fragment /\
      _buildFilterArgs fragment expected = Ok built /\
      entry ∈ logs /\
      events !! i = Some (decoded emitter fragment entry) /\
      (contract_address emitter <> "*" ->
       toUpperCase (log_address entry) = toUpperCase (contract_address emitter)) /\
      (forall values, snd built = Some values ->
                      _matchProperties (decoded emitter fragment entry) values = Ok true).
Proof.
  unfold expectOrdered, expectEmittersAndEvents. intros H.
  apply try_bind_Done in H as (filters & Hfs & H).
  apply try_bind_Done in H as ([addrs res] & Hr & [= <-]). apply lift_Done in Hr.
  apply newFilters_Done in Hfs.
  apply orderedFilter_Ok in Hr as (st & Hst & [= -> ->]).
  apply orderedFilter_state_Inv in Hst as [I Hlen]. simpl.
  pose proof (Forall2_length _ _ _ Hfs) as Hlens.
  split; [rewrite (inv_result_len _ _ _ I); lia |].
  intros i expected Hi.
  destruct (Forall2_lookup_l _ _ _ _ _ Hfs Hi) as (f & Hf & Hnew).
  apply newFilter_Done in Hnew as (fragment & built & Hfrag & Hb & Hni & Hdec & Haddr).
  destruct (inv_assigned _ _ _ I Hlen i f Hf) as (p & entry & _ & He & Hc & Hres & _).
  exists fragment, built, entry. rewrite Hdec in Hres.
  split; [exact Hfrag |]. split; [exact Hb |].
  split; [eapply list_elem_of_lookup_2; exact He |]. split; [exact Hres |]. split.
  - intros Hne. eapply matchTopics_address;
      [apply candidate_true_matchTopics; exact Hc | auto].
  - intros values Hv. unfold candidate in Hc.
    destruct (_matchTopics entry f); [| discriminate].
    rewrite Hni, Hv, Hdec in Hc. exact Hc.
Qed.
End EventFactoryMoreProps.

Lemma listener_events_instance :
  exists fragment,
    getEvent (interface ex_emitter_named) "Store" = Some fragment /\
    Forall2 (fun args e => exists event n,
                 last args = Some event /\ event_blockNumber event = Some n /\
                 e = kept_args event /\
                 forall i param, inputs fragment !! i = Some param ->
                                 param_present e i param)
            [[ex_event 7 "a"]; [ex_event 7 "x"; ex_event 8 "b"]]
            [JArr 0 [JStr "a"] [("value", JStr "a")];
             JArr 0 [JStr "b"] [("value", JStr "b")]].
Proof.
  apply (listener_events "Store" ex_emitter_named (listener_convert "Store" ex_store_fragment)).
  - reflexivity.
  - reflexivity.
Defined.

Lemma waitAll_Done_instance :
  receipt_status ex_receipt = Some 1%Z /\
  (forall r, Done (IsReceipt ex_receipt) = Done (IsReceipt r) -> ex_receipt = r) /\
  exists args,
    findEventArgs "Store" (receipt_logs ex_receipt) ex_emitter_named = Ok args /\
    args <> [] /\
    forall f, Some (fun args : list JValue => Ok (length args)) = Some f ->
              exists x, f args = Ok x.
Proof.
  apply (waitAll_Done "Store" ex_emitter_named nat (Done (IsReceipt ex_receipt))
           (Some (fun args => Ok (length args))) ex_receipt).
  reflexivity.
Defined.

Lemma expectOrdered_Done_instance :
  length [JArr 0 [JStr "2"] [("value", JStr "2")]]
    = length [JObj 1 [("value", JStr "2")]] /\
  forall i expected, [JObj 1 [("value", JStr "2")]] !! i = Some expected ->
    exists fragment built entry,
      getEvent (interface ex_emitter_named) "Store" = Some fragment /\
      _buildFilterArgs fragment expected = Ok built /\
      entry ∈ ex_logs /\
      [JArr 0 [JStr "2"] [("value", JStr "2")]] !! i
        = Some (decoded ex_emitter_named fragment entry) /\
      (contract_address ex_emitter_named <> "*" ->
       toUpperCase (log_address entry) = toUpperCase (contract_address ex_emitter_named)) /\
      (forall values, snd built = Some values ->
                      _matchProperties (decoded ex_emitter_named fragment entry) values
                        = Ok true).
Proof.
  apply (expectOrdered_Done ex_encoder "Store" ex_emitter_named ex_logs
           [JObj 1 [("value", JStr "2")]] None).
  reflexivity.
Defined.
